(** * Synapse backend: Gemini history normalizer and model fallback loop

    A shallow embedding of [buildGeminiHistory] and [getGeminiAPIResponse]
    (the Gemini utility module of the backend) together with the properties
    its design document states about them.

    JavaScript values are modelled as far as the two functions look at them:
    a message is an object with a [role] string and a [content] value whose
    truthiness is tested; arrays are lists; [Array.prototype.findIndex]
    returns an integer with [-1] for "not found"; [Array.prototype.slice]
    normalises negative indices the way the language does.  The generative
    API client is an external capability and enters as section variables. *)

From stdpp Require Import base gmap list strings.
From Stdlib Require Import ZArith Lia.

Local Open Scope Z_scope.
Local Open Scope string_scope.
Local Open Scope list_scope.

(** ** JavaScript values and the array/string primitives the module uses *)

Module JS.

(** The values a [content] field can hold.  Numbers are restricted to the
    integers ([NaN] and fractions do not occur in stored messages). *)
Inductive value : Type :=
| Undefined
| Null
| Bool (b : bool)
| Num (n : Z)
| Str (s : string).

(** ToBoolean: what [if (v)], [v && ...] and a [filter] callback see. *)
Definition truthy (v : value) : bool :=
  match v with
  | Undefined | Null => false
  | Bool b => b
  | Num n => negb (Z.eqb n 0)
  | Str s => negb (String.eqb s EmptyString)
  end.

(** [arr.filter(p)] *)
Definition filter {A} (p : A -> bool) (arr : list A) : list A :=
  List.filter p arr.

(** [arr.findIndex(p)]: index of the first element satisfying [p], else -1. *)
Fixpoint findIndex_from {A} (p : A -> bool) (arr : list A) (i : Z) : Z :=
  match arr with
  | [] => -1
  | x :: rest => if p x then i else findIndex_from p rest (i + 1)
  end.

Definition findIndex {A} (p : A -> bool) (arr : list A) : Z :=
  findIndex_from p arr 0.

(** Relative index normalisation shared by the two arguments of [slice]. *)
Definition rel_index (len i : Z) : Z :=
  if Z.ltb i 0 then Z.max (len + i) 0 else Z.min i len.

(** [arr.slice(start, end)] *)
Definition slice {A} (arr : list A) (start stop : Z) : list A :=
  let len := Z.of_nat (length arr) in
  let k := rel_index len start in
  let final := rel_index len stop in
  take (Z.to_nat (final - k)) (drop (Z.to_nat k) arr).

(** [arr.slice(start)]: the end defaults to the length. *)
Definition slice_from {A} (arr : list A) (start : Z) : list A :=
  slice arr start (Z.of_nat (length arr)).

(** [arr[i]]: [undefined] (here [None]) outside the array. *)
Definition index {A} (arr : list A) (i : Z) : option A :=
  if Z.ltb i 0 then None else arr !! Z.to_nat i.

(** [hay.includes(needle)] on strings. *)
Fixpoint includes (hay needle : string) : bool :=
  String.prefix needle hay ||
  match hay with
  | EmptyString => false
  | String _ rest => includes rest needle
  end.

End JS.

(** ** Data model *)

(** A stored chat message, in the OpenAI layout the database keeps. *)
Module Message.
Record t : Type := mk { role : string; content : JS.value }.
End Message.

(** One [{ text: ... }] entry of a Gemini turn. *)
Record Part : Type := { text : JS.value }.

(** A Gemini history entry [{ role, parts }]. *)
Module Turn.
Record t : Type := mk { role : string; parts : list Part }.
End Turn.

(** ** buildGeminiHistory *)

(** [msg.role === "assistant" ? "model" : "user"] *)
Definition currentRole (msg : Message.t) : string :=
  if String.eqb (Message.role msg) "assistant" then "model" else "user".

(** [currentRole === lastRole], where [lastRole] starts out as [null]. *)
Definition same_role (currentRole : string) (lastRole : option string) : bool :=
  match lastRole with
  | None => false
  | Some r => String.eqb currentRole r
  end.

(** The object pushed for a message that is kept. *)
Definition turn_of (msg : Message.t) : Turn.t :=
  {| Turn.role := currentRole msg;
     Turn.parts := [ {| text := Message.content msg |} ] |}.

(** One iteration of the [for (const msg of roleAlternatingHistory)] loop,
    on the pair of loop-carried variables [(lastRole, filteredHistory)];
    [push] appends at the end. *)
Definition history_step (st : option string * list Turn.t) (msg : Message.t)
  : option string * list Turn.t :=
  let '(lastRole, filteredHistory) := st in
  if same_role (currentRole msg) lastRole then
    (lastRole, filteredHistory)
  else
    (Some (currentRole msg), filteredHistory ++ [turn_of msg]).

Definition history_loop (roleAlternatingHistory : list Message.t)
  (st : option string * list Turn.t) : option string * list Turn.t :=
  fold_left history_step roleAlternatingHistory st.

Definition buildGeminiHistory (messages : list Message.t) : list Turn.t :=
  let validMessages :=
    JS.filter (fun m => JS.truthy (Message.content m)) messages in
  let firstUserIndex :=
    JS.findIndex (fun m => String.eqb (Message.role m) "user") validMessages in
  if Z.eqb firstUserIndex (-1) then
    []
  else
    let roleAlternatingHistory := JS.slice_from validMessages firstUserIndex in
    snd (history_loop roleAlternatingHistory (None, [])).

(** The history that the loop emits when started with [lastRole], written by
    recursion on the remaining messages; [history_loop_walk] below shows the
    loop computes exactly this. *)
Fixpoint walk (lastRole : option string) (msgs : list Message.t) : list Turn.t :=
  match msgs with
  | [] => []
  | msg :: rest =>
      if same_role (currentRole msg) lastRole then walk lastRole rest
      else turn_of msg :: walk (Some (currentRole msg)) rest
  end.

(** The value of [lastRole] once the loop has consumed [msgs]. *)
Fixpoint last_role_after (lastRole : option string) (msgs : list Message.t)
  : option string :=
  match msgs with
  | [] => lastRole
  | msg :: rest =>
      if same_role (currentRole msg) lastRole then last_role_after lastRole rest
      else last_role_after (Some (currentRole msg)) rest
  end.

(** The inverse renaming, from Gemini turns back to stored messages. *)
Definition message_of (t : Turn.t) : Message.t :=
  {| Message.role :=
       if String.eqb (Turn.role t) "model" then "assistant" else Turn.role t;
     Message.content :=
       match Turn.parts t with
       | p :: _ => text p
       | [] => JS.Undefined
       end |}.

(** Roles of a history in which neighbours never coincide. *)
Fixpoint alternating (roles : list string) : bool :=
  match roles with
  | a :: (b :: _) as rest => negb (String.eqb a b) && alternating rest
  | _ => true
  end.

(** The scenario of the design document. *)
Definition scenario_input : list Message.t :=
  [ Message.mk "user" (JS.Str "hi");
    Message.mk "assistant" (JS.Str EmptyString);
    Message.mk "assistant" (JS.Str "hello");
    Message.mk "user" (JS.Str "bye") ].

Definition scenario_output : list Turn.t :=
  [ Turn.mk "user" [ {| text := JS.Str "hi" |} ];
    Turn.mk "model" [ {| text := JS.Str "hello" |} ];
    Turn.mk "user" [ {| text := JS.Str "bye" |} ] ].

(** ** The same function over a store of arrays

    Arrays are mutable objects.  To speak about what [buildGeminiHistory]
    touches, this version runs on a store: [filter] and [slice] allocate a
    fresh array, [push] updates the array it is called on, and everything
    else only reads.  [None] stands for a run that reads a location holding
    no array of the expected kind. *)

Module Store.

Inductive array : Type :=
| Messages (items : list Message.t)
| Turns (items : list Turn.t).

Abbreviation loc := positive (only parsing).
Abbreviation heap := (gmap positive array) (only parsing).

Definition M (A : Type) : Type := heap -> option (A * heap).

Definition ret {A} (a : A) : M A := fun h => Some (a, h).

Definition bind {A B} (m : M A) (k : A -> M B) : M B :=
  fun h => match m h with
           | Some (a, h') => k a h'
           | None => None
           end.

Notation "x <- m ;; k" := (bind m (fun x => k))
  (at level 100, m at next level, right associativity).

(** A new array object. *)
Definition alloc (a : array) : M loc :=
  fun h => let l := fresh (dom h) in Some (l, <[l := a]> h).

Definition read_messages (l : loc) : M (list Message.t) :=
  fun h => match h !! l with
           | Some (Messages items) => Some (items, h)
           | _ => None
           end.

(** [arr.push(t)] *)
Definition push (l : loc) (t : Turn.t) : M unit :=
  fun h => match h !! l with
           | Some (Turns items) => Some (tt, <[l := Turns (items ++ [t])]> h)
           | _ => None
           end.

(** [arr.filter(p)] *)
Definition filter (p : Message.t -> bool) (l : loc) : M loc :=
  items <- read_messages l ;; alloc (Messages (JS.filter p items)).

(** [arr.findIndex(p)] *)
Definition findIndex (p : Message.t -> bool) (l : loc) : M Z :=
  items <- read_messages l ;; ret (JS.findIndex p items).

(** [arr.slice(start)] *)
Definition slice_from (l : loc) (start : Z) : M loc :=
  items <- read_messages l ;; alloc (Messages (JS.slice_from items start)).

(** The [for ... of] loop over the elements [msgs] of
    [roleAlternatingHistory]; the body pushes onto [filteredHistory]. *)
Fixpoint history_loop (filteredHistory : loc) (msgs : list Message.t)
  (lastRole : option string) : M (option string) :=
  match msgs with
  | [] => ret lastRole
  | msg :: rest =>
      if same_role (currentRole msg) lastRole then
        history_loop filteredHistory rest lastRole
      else
        _ <- push filteredHistory (turn_of msg) ;;
        history_loop filteredHistory rest (Some (currentRole msg))
  end.

Definition buildGeminiHistory (messages : loc) : M loc :=
  validMessages <- filter (fun m => JS.truthy (Message.content m)) messages ;;
  firstUserIndex <-
    findIndex (fun m => String.eqb (Message.role m) "user") validMessages ;;
  if Z.eqb firstUserIndex (-1) then
    alloc (Turns [])
  else
    roleAlternatingHistory <- slice_from validMessages firstUserIndex ;;
    filteredHistory <- alloc (Turns []) ;;
    msgs <- read_messages roleAlternatingHistory ;;
    _ <- history_loop filteredHistory msgs None ;;
    ret filteredHistory.

End Store.

(** ** getGeminiAPIResponse *)

(** What a [catch] clause receives: an [Error] instance.  The client library
    and the runtime raise errors whose [message] is a string; [props] holds
    whatever else the object carries (status, details, stack). *)
Module Err.
Record t : Type :=
  mk { name : string; message : string; props : list (string * JS.value) }.
End Err.

(** [new Error(msg)] *)
Definition new_Error (msg : string) : Err.t :=
  {| Err.name := "Error"; Err.message := msg; Err.props := [] |}.

(** The runtime's error for a property read on [undefined] or [null]. *)
Definition TypeError_read (base prop : string) : Err.t :=
  {| Err.name := "TypeError";
     Err.message :=
       "Cannot read properties of " +:+ base +:+ " (reading '" +:+ prop +:+ "')";
     Err.props := [] |}.

Definition MODELS_TO_TRY : list string :=
  [ "gemini-2.5-pro"; "gemini-2.5-flash"; "gemini-2.5-flash-lite" ].

(** [err.message && err.message.includes("429")], as the [if] sees it. *)
Definition is_rate_limit (err : Err.t) : bool :=
  JS.truthy (JS.Str (Err.message err)) && JS.includes (Err.message err) "429".

(** The text contains the given piece somewhere. *)
Definition contains (hay needle : string) : Prop :=
  exists before after, hay = before +:+ needle +:+ after.

Inductive console_line : Type :=
| Log (s : string)
| Warn (s : string)
| Error (s : string) (arg : option Err.t).

(** One pass through the loop body, as seen from outside: the model asked,
    the history handed to [startChat], the prompt handed to [sendMessage]
    (if the pass got that far) and how the [try] block ended. *)
Record attempt : Type :=
  { att_model : string;
    att_history : list Turn.t;
    att_prompt : option JS.value;
    att_result : string + Err.t }.

(** How the [for] loop over the models ends. *)
Inductive loop_exit : Type :=
| Returned (text : string)
| Thrown (err : Err.t)
| Finished (lastKnownError : option Err.t).

(** Settlement of the promise the async function returns. *)
Inductive outcome : Type :=
| Resolved (text : string)
| Rejected (err : Err.t).

Section Orchestrator.

(** The outside world (the service and the network) and a chat session. *)
Variables W Chat : Type.

(** [genAI.getGenerativeModel({ model }).startChat({ history })] *)
Variable startChat : string -> list Turn.t -> W -> (Chat + Err.t) * W.

(** [chat.sendMessage(prompt)], the awaited [result.response] and its
    [text()], taken together: the text, or the error one of them raised. *)
Variable sendMessage : Chat -> JS.value -> W -> (string + Err.t) * W.

Record state : Type :=
  { world : W; attempts : list attempt; console : list console_line }.

Definition print (line : console_line) (st : state) : state :=
  {| world := world st; attempts := attempts st;
     console := console st ++ [line] |}.

(** The [try] block.  [newPromptMsg] is [None] when [messages] was empty,
    and reading [.content] of it then raises inside the block. *)
Definition try_block (modelName : string) (geminiHistory : list Turn.t)
  (newPromptMsg : option Message.t) (w : W)
  : (string + Err.t) * option JS.value * W :=
  match startChat modelName geminiHistory w with
  | (inr err, w1) => (inr err, None, w1)
  | (inl chat, w1) =>
      match newPromptMsg with
      | None => (inr (TypeError_read "undefined" "content"), None, w1)
      | Some msg =>
          let '(res, w2) := sendMessage chat (Message.content msg) w1 in
          (res, Some (Message.content msg), w2)
      end
  end.

(** The [for (const modelName of MODELS_TO_TRY)] loop with its
    [try]/[catch], by recursion on the models still to try. *)
Fixpoint model_loop (models : list string) (geminiHistory : list Turn.t)
  (newPromptMsg : option Message.t) (lastKnownError : option Err.t)
  (st : state) : loop_exit * state :=
  match models with
  | [] => (Finished lastKnownError, st)
  | modelName :: rest =>
      let st := print (Log ("Attempting to use model: " +:+ modelName)) st in
      let '(res, sent, w) :=
        try_block modelName geminiHistory newPromptMsg (world st) in
      let st :=
        {| world := w;
           attempts := attempts st ++
             [ {| att_model := modelName; att_history := geminiHistory;
                  att_prompt := sent; att_result := res |} ];
           console := console st |} in
      match res with
      | inl text =>
          let st := print (Log ("Success with model: " +:+ modelName)) st in
          (Returned text, st)
      | inr err =>
          let st :=
            print (Warn ("Model " +:+ modelName +:+ " failed. Checking error...")) st in
          let lastKnownError := Some err in
          if is_rate_limit err then
            let st :=
              print (Log ("Rate limit hit for " +:+ modelName
                          +:+ ". Trying next model...")) st in
            model_loop rest geminiHistory newPromptMsg lastKnownError st
          else
            let st :=
              print (Error "A non-recoverable error occurred:" (Some err)) st in
            (Thrown err, st)
      end
  end.

(** The statements after the loop. *)
Definition all_failed (lastKnownError : option Err.t) (st : state)
  : outcome * state :=
  let st := print (Error "All models failed. Throwing last known error." None) st in
  match lastKnownError with
  | Some err =>
      (Rejected (new_Error ("All Gemini models are unavailable. Last error: "
                            +:+ Err.message err)), st)
  | None => (Rejected (TypeError_read "null" "message"), st)
  end.

Definition getGeminiAPIResponse (messages : list Message.t) (w : W)
  : outcome * state :=
  let newPromptMsg := JS.index messages (Z.of_nat (length messages) - 1) in
  let historyMsgs := JS.slice messages 0 (-1) in
  let geminiHistory := buildGeminiHistory historyMsgs in
  let st := {| world := w; attempts := []; console := [] |} in
  match model_loop MODELS_TO_TRY geminiHistory newPromptMsg None st with
  | (Returned text, st) => (Resolved text, st)
  | (Thrown err, st) => (Rejected err, st)
  | (Finished lastKnownError, st) => all_failed lastKnownError st
  end.

End Orchestrator.

Arguments world {W}.
Arguments attempts {W}.
Arguments console {W}.

(** The attempt failed and the [catch] clause took it for a rate limit. *)
Definition rate_limited (a : attempt) : bool :=
  match att_result a with
  | inr err => is_rate_limit err
  | inl _ => false
  end.

(** The error the [catch] clause stored last, given the one known before. *)
Definition last_error (known : option Err.t) (tried : list attempt)
  : option Err.t :=
  fold_left (fun known a => match att_result a with
                            | inr err => Some err
                            | inl _ => known
                            end) tried known.

(** The line printed right before the final [throw]. *)
Definition exhausted_line : console_line :=
  Error "All models failed. Throwing last known error." None.

(** The message of the error built by the final [throw]. *)
Definition unavailable_message (err : Err.t) : string :=
  "All Gemini models are unavailable. Last error: " +:+ Err.message err.

(** A scripted outside world for the examples: starting a chat always works,
    and each [sendMessage] consumes the next scripted reply. *)
Module Scripted.

Definition W : Type := list (string + Err.t).
Definition Chat : Type := string.

Definition startChat (modelName : string) (history : list Turn.t) (w : W)
  : (Chat + Err.t) * W := (inl modelName, w).

Definition sendMessage (chat : Chat) (prompt : JS.value) (w : W)
  : (string + Err.t) * W :=
  match w with
  | reply :: later => (reply, later)
  | [] => (inr (new_Error "fetch failed"), [])
  end.

Definition run (messages : list Message.t) (w : W) : outcome * state W :=
  getGeminiAPIResponse W Chat startChat sendMessage messages w.

Definition too_many : Err.t :=
  {| Err.name := "GoogleGenerativeAIFetchError";
     Err.message := "[429 Too Many Requests] Resource has been exhausted";
     Err.props := [("status", JS.Num 429)] |}.

Definition unauthorized : Err.t :=
  {| Err.name := "GoogleGenerativeAIFetchError";
     Err.message := "[401 Unauthorized] API key not valid";
     Err.props := [("status", JS.Num 401)] |}.

Definition old_history : list Message.t :=
  [ Message.mk "assistant" (JS.Str "old") ].

Definition question : Message.t := Message.mk "user" (JS.Str "new question").

Definition chat_log : list Message.t := old_history ++ [question].

(** The attempt one expects to see recorded for [chat_log]. *)
Definition tried (modelName : string) (res : string + Err.t) : attempt :=
  {| att_model := modelName; att_history := [];
     att_prompt := Some (JS.Str "new question"); att_result := res |}.

End Scripted.

(** The two callbacks of [buildGeminiHistory], named. *)
Definition has_content (m : Message.t) : bool := JS.truthy (Message.content m).
Definition from_user (m : Message.t) : bool := String.eqb (Message.role m) "user".

(** The roles the database stores. *)
Definition stored_role (m : Message.t) : Prop :=
  Message.role m = "user" \/ Message.role m = "assistant".

(** An input that needs no normalising. *)
Definition alternating_log : list Message.t :=
  [ Message.mk "user" (JS.Str "hi");
    Message.mk "assistant" (JS.Str "hello");
    Message.mk "user" (JS.Str "bye") ].

(** The lines one pass of the loop body prints, read off its record. *)
Definition attempt_lines (a : attempt) : list console_line :=
  Log ("Attempting to use model: " +:+ att_model a) ::
  match att_result a with
  | inl _ => [ Log ("Success with model: " +:+ att_model a) ]
  | inr err =>
      Warn ("Model " +:+ att_model a +:+ " failed. Checking error...") ::
      if is_rate_limit err then
        [ Log ("Rate limit hit for " +:+ att_model a +:+ ". Trying next model...") ]
      else
        [ Error "A non-recoverable error occurred:" (Some err) ]
  end.

(** Two stored messages the walk cannot tell apart: the same content, and
    the same answer to [role === "assistant"]. *)
Definition same_for_walk (m1 m2 : Message.t) : Prop :=
  Message.content m1 = Message.content m2 /\
  String.eqb (Message.role m1) "assistant" = String.eqb (Message.role m2) "assistant".

(** What the provider accepts as a chat history: it does not open with a
    "model" turn, neighbouring roles differ, and every turn has exactly one
    part, with truthy text. *)
Definition provider_ready (history : list Turn.t) : Prop :=
  head (Turn.role <$> history) <> Some "model" /\
  alternating (Turn.role <$> history) = true /\
  Forall (fun t => exists c, Turn.parts t = [ {| text := c |} ] /\ JS.truthy c = true)
         history.

(** * Properties *)

(** ** Facts about the array and string primitives *)

Section ArrayFacts.

Context {A : Type}.
Implicit Types (p : A -> bool) (arr : list A).

Lemma findIndex_from_lower p arr i :
  JS.findIndex_from p arr i = -1 \/ i <= JS.findIndex_from p arr i.
Proof.
  revert i. induction arr as [|x rest IH]; intros i; simpl.
  - by left.
  - destruct (p x); [right; lia|].
    destruct (IH (i + 1)) as [->|H]; [by left | right; lia].
Qed.

Lemma findIndex_from_none p arr i :
  0 <= i -> JS.findIndex_from p arr i = -1 -> Forall (fun x => p x = false) arr.
Proof.
  revert i. induction arr as [|x rest IH]; intros i Hi; simpl; [constructor|].
  destruct (p x) eqn:Hp; [lia|].
  intros H. constructor; [done|]. apply (IH (i + 1)); [lia | done].
Qed.

Lemma findIndex_from_found p arr i :
  0 <= i -> JS.findIndex_from p arr i <> -1 ->
  exists pre x post,
    arr = pre ++ x :: post /\ Forall (fun y => p y = false) pre /\
    p x = true /\ JS.findIndex_from p arr i = i + Z.of_nat (length pre).
Proof.
  revert i. induction arr as [|x rest IH]; intros i Hi; simpl; [done|].
  destruct (p x) eqn:Hp.
  - intros _. exists [], x, rest. simpl. repeat split; [constructor | done | lia].
  - intros H. destruct (IH (i + 1)) as (pre & y & post & -> & Hpre & Hy & Hix);
      [lia | done |].
    exists (x :: pre), y, post. simpl. repeat split; [by constructor | done |].
    rewrite Hix. lia.
Qed.

Lemma slice_from_drop arr k :
  0 <= k <= Z.of_nat (length arr) ->
  JS.slice_from arr k = drop (Z.to_nat k) arr.
Proof.
  intros Hk. unfold JS.slice_from, JS.slice, JS.rel_index.
  destruct (Z.ltb_spec k 0); [lia|].
  destruct (Z.ltb_spec (Z.of_nat (length arr)) 0); [lia|].
  rewrite (Z.min_l k) by lia. rewrite Z.min_id.
  apply take_ge. rewrite length_drop. lia.
Qed.

Lemma slice_all_but_last arr x : JS.slice (arr ++ [x]) 0 (-1) = arr.
Proof.
  unfold JS.slice, JS.rel_index. simpl.
  rewrite length_app. simpl.
  rewrite Z.min_l by lia. rewrite Z.max_l by lia.
  replace (Z.to_nat (_ - 0)) with (length arr) by lia.
  change (Z.to_nat 0) with 0%nat. rewrite drop_0.
  by rewrite take_app_length.
Qed.

Lemma slice_all_but_last_nil : JS.slice (@nil A) 0 (-1) = [].
Proof. reflexivity. Qed.

Lemma index_last arr x :
  JS.index (arr ++ [x]) (Z.of_nat (length (arr ++ [x])) - 1) = Some x.
Proof.
  unfold JS.index. rewrite length_app. simpl.
  destruct (Z.ltb_spec (Z.of_nat (length arr + 1) - 1) 0); [lia|].
  replace (Z.to_nat _) with (length arr) by lia.
  by rewrite list_lookup_middle.
Qed.

Lemma filter_keeps p arr : Forall (fun x => p x = true) arr -> JS.filter p arr = arr.
Proof.
  unfold JS.filter. induction 1 as [|x rest Hx _ IH]; simpl; [done|].
  by rewrite Hx, IH.
Qed.

Lemma filter_elem p arr x : x ∈ JS.filter p arr <-> x ∈ arr /\ p x = true.
Proof. unfold JS.filter. rewrite !list_elem_of_In. apply filter_In. Qed.

Lemma filter_twice p arr : JS.filter p (JS.filter p arr) = JS.filter p arr.
Proof.
  apply filter_keeps, Forall_forall. intros x Hx. by apply filter_elem in Hx as [_ ?].
Qed.

End ArrayFacts.

Section StringFacts.

Lemma append_cons (c : Ascii.ascii) (a b : string) :
  String c a +:+ b = String c (a +:+ b).
Proof. reflexivity. Qed.

Lemma append_empty (b : string) : EmptyString +:+ b = b.
Proof. reflexivity. Qed.

Lemma prefix_append (needle hay : string) :
  String.prefix needle hay = true <-> exists after, hay = needle +:+ after.
Proof.
  revert hay. induction needle as [|c needle IH]; intros hay.
  - split; [intros _; by exists hay | by destruct hay].
  - destruct hay as [|d hay]; simpl.
    + split; [done | by intros [? ?]].
    + destruct (Ascii.ascii_dec c d) as [->|Hcd].
      * rewrite IH. split; intros [after H]; exists after;
          rewrite append_cons in *; congruence.
      * split; [done | intros [after H]; rewrite append_cons in H; congruence].
Qed.

Lemma includes_unfold (hay needle : string) :
  JS.includes hay needle =
  String.prefix needle hay ||
  match hay with
  | EmptyString => false
  | String _ rest => JS.includes rest needle
  end.
Proof. by destruct hay. Qed.

Lemma append_assoc (a b c : string) : (a +:+ b) +:+ c = a +:+ (b +:+ c).
Proof.
  induction a as [|x a IH]; [done|]. by rewrite !append_cons, IH.
Qed.

(** [includes] is the substring test. *)
Lemma includes_contains (hay needle : string) :
  JS.includes hay needle = true <-> contains hay needle.
Proof.
  unfold contains. split.
  - induction hay as [|c hay IH]; rewrite includes_unfold;
      intros [Hp|Hr]%orb_true_iff; try done.
    + apply prefix_append in Hp as [after ->]. by exists EmptyString, after.
    + apply prefix_append in Hp as [after ->]. by exists EmptyString, after.
    + destruct (IH Hr) as (before & after & ->).
      by exists (String c before), after.
  - intros (before & after & ->).
    induction before as [|c before IH]; rewrite includes_unfold; simpl.
    + apply orb_true_iff; left. apply prefix_append. by exists after.
    + apply orb_true_iff; right. exact IH.
Qed.

Lemma contains_append_r (a b needle : string) :
  contains b needle -> contains (a +:+ b) needle.
Proof.
  intros (before & after & ->). exists (a +:+ before), after.
  by rewrite append_assoc.
Qed.

Lemma eqb_false_sym (a b : string) : String.eqb a b = false -> String.eqb b a = false.
Proof. rewrite !String.eqb_neq. congruence. Qed.

End StringFacts.

(** ** The history normalizer *)

Section Normalizer.

Implicit Types (msg m : Message.t) (msgs messages : list Message.t).
Implicit Types (lastRole : option string) (t : Turn.t).

(** The loop is the recursive walk, appended to what was already pushed. *)
Lemma history_loop_walk msgs lastRole filteredHistory :
  history_loop msgs (lastRole, filteredHistory) =
  (last_role_after lastRole msgs, filteredHistory ++ walk lastRole msgs).
Proof.
  unfold history_loop.
  revert lastRole filteredHistory.
  induction msgs as [|msg rest IH]; intros lastRole acc; simpl.
  - by rewrite app_nil_r.
  - destruct (same_role (currentRole msg) lastRole); rewrite IH; [done|].
    by rewrite <- app_assoc.
Qed.

(** Either no kept message comes from the user and the result is empty, or
    the result is the walk started at the first kept user message. *)
Lemma buildGeminiHistory_cases messages :
  let validMessages := JS.filter has_content messages in
  (Forall (fun m => from_user m = false) validMessages /\
   buildGeminiHistory messages = []) \/
  (exists pre first post,
      validMessages = pre ++ first :: post /\
      Forall (fun m => from_user m = false) pre /\
      Message.role first = "user" /\
      buildGeminiHistory messages = walk None (first :: post)).
Proof.
  intros validMessages. unfold buildGeminiHistory.
  fold has_content. fold validMessages. fold from_user.
  unfold JS.findIndex.
  destruct (Z.eqb_spec (JS.findIndex_from from_user validMessages 0) (-1))
    as [Hnone|Hsome].
  - left. split; [|done]. by eapply findIndex_from_none.
  - right.
    destruct (findIndex_from_found from_user validMessages 0)
      as (pre & first & post & Hsplit & Hpre & Hfirst & Hix); [lia | done |].
    exists pre, first, post. repeat split; [done | done | |].
    + by apply String.eqb_eq.
    + rewrite Hix, history_loop_walk. cbn [snd app].
      rewrite slice_from_drop by (rewrite Hsplit, length_app; lia).
      rewrite Hsplit. replace (Z.to_nat _) with (length pre) by lia.
      by rewrite drop_app_length.
Qed.

Lemma turn_of_role msg : Turn.role (turn_of msg) = currentRole msg.
Proof. done. Qed.

Lemma currentRole_user msg : Message.role msg = "user" -> currentRole msg = "user".
Proof. unfold currentRole. by intros ->. Qed.

Lemma currentRole_cases msg : currentRole msg = "user" \/ currentRole msg = "model".
Proof. unfold currentRole. destruct (String.eqb _ _); auto. Qed.

Lemma alternating_cons (a b : string) (rest : list string) :
  alternating (a :: b :: rest) = negb (String.eqb a b) && alternating (b :: rest).
Proof. reflexivity. Qed.

(** What the walk emits first is never a repeat of [lastRole]. *)
Lemma walk_head lastRole msgs t :
  head (walk lastRole msgs) = Some t -> same_role (Turn.role t) lastRole = false.
Proof.
  induction msgs as [|msg rest IH]; simpl; [done|].
  destruct (same_role (currentRole msg) lastRole) eqn:Hsame; [done|].
  simpl. by intros [= <-].
Qed.

Lemma walk_alternating lastRole msgs :
  alternating (Turn.role <$> walk lastRole msgs) = true.
Proof.
  revert lastRole. induction msgs as [|msg rest IH]; intros lastRole; simpl; [done|].
  destruct (same_role (currentRole msg) lastRole); [apply IH|].
  specialize (IH (Some (currentRole msg))).
  pose proof (walk_head (Some (currentRole msg)) rest) as Hhead.
  destruct (walk (Some (currentRole msg)) rest) as [|t ts]; [done|].
  specialize (Hhead t eq_refl). simpl in Hhead.
  rewrite !fmap_cons, alternating_cons. rewrite fmap_cons in IH.
  rewrite IH, andb_true_r, turn_of_role.
  by rewrite (eqb_false_sym _ _ Hhead).
Qed.

Lemma alternating_lookup (roles : list string) i a b :
  alternating roles = true -> roles !! i = Some a -> roles !! S i = Some b -> a <> b.
Proof.
  revert i. induction roles as [|x [|y rest] IH]; intros i; try done.
  rewrite alternating_cons. intros [Hxy Hrest]%andb_true_iff.
  destruct i as [|i]; simpl.
  - intros [= <-] [= <-]. by apply String.eqb_neq, negb_true_iff.
  - intros Ha Hb. by apply (IH i).
Qed.

(** Every emitted turn is [turn_of] some message that was walked over. *)
Lemma walk_elem lastRole msgs t :
  t ∈ walk lastRole msgs -> exists m, m ∈ msgs /\ t = turn_of m.
Proof.
  revert lastRole. induction msgs as [|msg rest IH]; intros lastRole; simpl.
  - by intros ?%elem_of_nil.
  - destruct (same_role (currentRole msg) lastRole).
    + intros (m & ? & ->)%IH. exists m. split; [by right | done].
    + intros [->|(m & ? & ->)%IH]%elem_of_cons.
      * exists msg. split; [by left | done].
      * exists m. split; [by right | done].
Qed.

(** A message repeating the role the loop saw last leaves it unchanged. *)
Lemma walk_skip_run lastRole msg run rest :
  Forall (fun m => currentRole m = currentRole msg) run ->
  walk lastRole (msg :: run ++ rest) = walk lastRole (msg :: rest).
Proof.
  intros Hrun.
  assert (Hskip : forall r, same_role (currentRole msg) (Some r) = true ->
            walk (Some r) (run ++ rest) = walk (Some r) rest).
  { intros r Hr. induction Hrun as [|m run Hm _ IH]; [done|].
    rewrite <- app_comm_cons. cbn [walk]. by rewrite Hm, Hr. }
  cbn [walk]. destruct (same_role (currentRole msg) lastRole) eqn:Hsame.
  - destruct lastRole as [r|]; [by apply Hskip | done].
  - f_equal. apply Hskip. simpl. apply String.eqb_refl.
Qed.

(** Messages that already alternate are all emitted. *)
Lemma walk_fixed lastRole msgs :
  (forall m, head msgs = Some m -> same_role (currentRole m) lastRole = false) ->
  alternating (currentRole <$> msgs) = true ->
  walk lastRole msgs = turn_of <$> msgs.
Proof.
  revert lastRole. induction msgs as [|msg rest IH]; intros lastRole Hhead Halt; [done|].
  cbn [walk]. rewrite (Hhead msg eq_refl). rewrite fmap_cons. f_equal.
  destruct rest as [|m' rest]; [done|].
  rewrite !fmap_cons, alternating_cons in Halt.
  apply andb_true_iff in Halt as [Hne Halt].
  apply IH; [|by rewrite fmap_cons].
  intros m [= <-]. simpl. apply eqb_false_sym. by apply negb_true_iff.
Qed.

Lemma buildGeminiHistory_fixed messages :
  Forall (fun m => has_content m = true) messages ->
  (forall m, head messages = Some m -> Message.role m = "user") ->
  alternating (currentRole <$> messages) = true ->
  buildGeminiHistory messages = turn_of <$> messages.
Proof.
  intros Hcontent Hhead Halt.
  destruct (buildGeminiHistory_cases messages) as [[Hnone Hout]|Hsome].
  - rewrite filter_keeps in Hnone by done.
    destruct messages as [|m rest]; [done|].
    apply Forall_cons in Hnone as [Hm _]. unfold from_user in Hm.
    rewrite (Hhead m eq_refl) in Hm. done.
  - destruct Hsome as (pre & first & post & Hsplit & Hpre & Hfirst & ->).
    rewrite filter_keeps in Hsplit by done.
    destruct pre as [|m pre].
    + simpl in Hsplit. rewrite <- Hsplit. by apply walk_fixed.
    + apply Forall_cons in Hpre as [Hm _]. unfold from_user in Hm.
      rewrite Hsplit in Hhead. rewrite (Hhead m eq_refl) in Hm. done.
Qed.

Lemma buildGeminiHistory_head messages :
  buildGeminiHistory messages = [] \/
  head (Turn.role <$> buildGeminiHistory messages) = Some "user".
Proof.
  destruct (buildGeminiHistory_cases messages)
    as [[_ ->]|(pre & first & post & _ & _ & Hfirst & ->)]; [by left|].
  right. cbn [walk same_role]. rewrite fmap_cons, turn_of_role.
  by rewrite (currentRole_user _ Hfirst).
Qed.

Lemma buildGeminiHistory_alternating messages :
  alternating (Turn.role <$> buildGeminiHistory messages) = true.
Proof.
  destruct (buildGeminiHistory_cases messages)
    as [[_ ->]|(pre & first & post & _ & _ & _ & ->)]; [done|].
  apply walk_alternating.
Qed.

Lemma buildGeminiHistory_from_kept messages t :
  t ∈ buildGeminiHistory messages ->
  exists m, m ∈ messages /\ has_content m = true /\ t = turn_of m.
Proof.
  destruct (buildGeminiHistory_cases messages)
    as [[_ ->]|(pre & first & post & Hsplit & _ & _ & ->)].
  - by intros ?%elem_of_nil.
  - intros (m & Hm & ->)%walk_elem. exists m.
    assert (Hin : m ∈ JS.filter has_content messages).
    { rewrite Hsplit. apply elem_of_app. by right. }
    apply filter_elem in Hin as [? ?]. done.
Qed.

Lemma buildGeminiHistory_filter messages :
  buildGeminiHistory (JS.filter has_content messages) = buildGeminiHistory messages.
Proof.
  unfold buildGeminiHistory. fold has_content. by rewrite filter_twice.
Qed.

Lemma buildGeminiHistory_no_user messages :
  Forall (fun m => has_content m = true -> Message.role m <> "user") messages ->
  buildGeminiHistory messages = [].
Proof.
  intros Hno.
  destruct (buildGeminiHistory_cases messages)
    as [[_ ->]|(pre & first & post & Hsplit & _ & Hfirst & _)]; [done|].
  assert (Hin : first ∈ JS.filter has_content messages).
  { rewrite Hsplit. apply elem_of_app. right. by left. }
  apply filter_elem in Hin as [Hin Hc].
  rewrite Forall_forall in Hno. by destruct (Hno first Hin Hc).
Qed.

(** Renaming a turn back to a message and forth again loses nothing. *)
Lemma message_of_turn_of m :
  turn_of (message_of (turn_of m)) = turn_of m /\
  currentRole (message_of (turn_of m)) = currentRole m /\
  Message.content (message_of (turn_of m)) = Message.content m.
Proof.
  unfold turn_of, message_of, currentRole. simpl.
  destruct (String.eqb (Message.role m) "assistant"); simpl; done.
Qed.

Lemma stored_roles_alternate messages :
  Forall stored_role messages ->
  alternating (Message.role <$> messages) = true ->
  alternating (currentRole <$> messages) = true.
Proof.
  induction 1 as [|m rest Hm Hrest IH]; [done|].
  destruct Hrest as [|m' rest Hm' Hrest]; [done|].
  rewrite !fmap_cons, !alternating_cons.
  intros [Hne Halt]%andb_true_iff.
  rewrite !fmap_cons in IH. rewrite IH, andb_true_r by done.
  unfold currentRole.
  destruct Hm as [Hr|Hr], Hm' as [Hr'|Hr']; rewrite Hr, Hr' in *; done.
Qed.

End Normalizer.

Section NormalizerClaims.

Implicit Types (msg m : Message.t) (msgs messages : list Message.t).

(** C1: the history returned by [buildGeminiHistory] never starts with a
    turn of role "model", and no two neighbouring turns have the same role:
    a non-empty result starts with role "user" and the roles alternate. *)
Theorem history_starts_with_user_and_alternates messages :
  head (Turn.role <$> buildGeminiHistory messages) <> Some "model" /\
  (buildGeminiHistory messages = [] \/
   head (Turn.role <$> buildGeminiHistory messages) = Some "user") /\
  alternating (Turn.role <$> buildGeminiHistory messages) = true /\
  (forall i a b,
      buildGeminiHistory messages !! i = Some a ->
      buildGeminiHistory messages !! S i = Some b ->
      Turn.role a <> Turn.role b).
Proof.
  pose proof (buildGeminiHistory_head messages) as Hhead.
  pose proof (buildGeminiHistory_alternating messages) as Halt.
  repeat split; [| done | done |].
  - destruct Hhead as [->| ->]; done.
  - intros i a b Ha Hb.
    apply (alternating_lookup (Turn.role <$> buildGeminiHistory messages) i);
      [done | |]; rewrite list_lookup_fmap; [by rewrite Ha | by rewrite Hb].
Qed.

Lemma history_starts_with_user_and_alternates_witness :
  buildGeminiHistory scenario_input !! 0%nat = Some (Turn.mk "user" [ {| text := JS.Str "hi" |} ]) /\
  buildGeminiHistory scenario_input !! 1%nat = Some (Turn.mk "model" [ {| text := JS.Str "hello" |} ]) /\
  "user" <> "model".
Proof.
  split; [reflexivity|]. split; [reflexivity|].
  exact (proj2 (proj2 (proj2 (history_starts_with_user_and_alternates scenario_input)))
           0%nat _ _ eq_refl eq_refl).
Defined.

(** C5: in the alternation walk a message whose mapped role equals the
    role emitted last is skipped, nothing of it is kept, so a run of
    messages with one mapped role collapses to its first message; the
    scenario [user "hi"; assistant (empty); assistant "hello"; user "bye"]
    yields [user "hi"; model "hello"; user "bye"]. *)
Theorem same_role_run_collapses_to_first :
  (forall lastRole filteredHistory msg,
      same_role (currentRole msg) lastRole = true ->
      history_step (lastRole, filteredHistory) msg = (lastRole, filteredHistory)) /\
  (forall lastRole filteredHistory msg,
      same_role (currentRole msg) lastRole = false ->
      history_step (lastRole, filteredHistory) msg =
      (Some (currentRole msg), filteredHistory ++ [turn_of msg])) /\
  (forall st msg run rest,
      Forall (fun m => currentRole m = currentRole msg) run ->
      snd (history_loop (msg :: run ++ rest) st) =
      snd (history_loop (msg :: rest) st)) /\
  buildGeminiHistory scenario_input = scenario_output.
Proof.
  repeat split.
  - intros lastRole acc msg H. unfold history_step. by rewrite H.
  - intros lastRole acc msg H. unfold history_step. by rewrite H.
  - intros [lastRole acc] msg run rest Hrun.
    rewrite !history_loop_walk. cbn [snd]. f_equal. by apply walk_skip_run.
Qed.

Lemma same_role_run_collapses_to_first_witness :
  snd (history_loop
         (Message.mk "user" (JS.Str "a")
            :: [Message.mk "user" (JS.Str "b"); Message.mk "system" (JS.Str "c")]
            ++ [Message.mk "assistant" (JS.Str "d")]) (None, [])) =
  [ Turn.mk "user" [ {| text := JS.Str "a" |} ];
    Turn.mk "model" [ {| text := JS.Str "d" |} ] ].
Proof.
  rewrite (proj1 (proj2 (proj2 same_role_run_collapses_to_first))).
  - reflexivity.
  - repeat constructor.
Defined.

(** C7: messages with falsy content are dropped before anything else is
    looked at, so the result is that of the kept messages alone and no turn
    of it carries empty content. *)
Theorem no_empty_content_in_history messages :
  buildGeminiHistory messages =
    buildGeminiHistory (JS.filter (fun m => JS.truthy (Message.content m)) messages) /\
  Forall (fun t => exists c, Turn.parts t = [ {| text := c |} ] /\ JS.truthy c = true)
    (buildGeminiHistory messages).
Proof.
  split.
  - symmetry. apply buildGeminiHistory_filter.
  - apply Forall_forall. intros t (m & _ & Hm & ->)%buildGeminiHistory_from_kept.
    by exists (Message.content m).
Qed.

(** C8: normalising is idempotent: the result, renamed back to stored
    messages, normalises to itself; and an input that is already pruned,
    begins with a "user" message and strictly alternates between the stored
    roles comes back unchanged up to the renaming of "assistant" to
    "model". *)
Theorem normalizer_idempotent messages :
  buildGeminiHistory (message_of <$> buildGeminiHistory messages) =
    buildGeminiHistory messages /\
  (Forall (fun m => JS.truthy (Message.content m) = true) messages ->
   Forall stored_role messages ->
   (forall m, head messages = Some m -> Message.role m = "user") ->
   alternating (Message.role <$> messages) = true ->
   buildGeminiHistory messages = turn_of <$> messages).
Proof.
  split.
  - pose proof (buildGeminiHistory_head messages) as Hhead.
    pose proof (buildGeminiHistory_alternating messages) as Halt.
    assert (Hkept : Forall (fun t => exists m, has_content m = true /\ t = turn_of m)
                      (buildGeminiHistory messages)).
    { apply Forall_forall. intros t (m & _ & ? & ->)%buildGeminiHistory_from_kept. eauto. }
    revert Hhead Halt Hkept. generalize (buildGeminiHistory messages) as out.
    intros out Hhead Halt Hkept.
    assert (Hroles : currentRole <$> (message_of <$> out) = Turn.role <$> out).
    { rewrite <- list_fmap_compose. apply list_fmap_ext.
      intros i t Ht. destruct (proj1 (Forall_lookup _ _) Hkept i t Ht) as (m & _ & ->).
      simpl. apply message_of_turn_of. }
    rewrite buildGeminiHistory_fixed.
    + rewrite <- list_fmap_compose. rewrite <- (list_fmap_id out) at 2.
      apply list_fmap_ext. intros i t Ht.
      destruct (proj1 (Forall_lookup _ _) Hkept i t Ht) as (m & _ & ->).
      simpl. apply message_of_turn_of.
    + apply Forall_fmap, Forall_forall. intros t Ht.
      rewrite Forall_forall in Hkept. destruct (Hkept t Ht) as (m & Hm & ->).
      simpl. unfold has_content.
      by rewrite (proj2 (proj2 (message_of_turn_of m))).
    + destruct Hhead as [->|Hhead]; [done|].
      destruct out as [|t out]; [done|]. simpl in Hhead. injection Hhead as Ht.
      intros m [= <-]. unfold message_of. simpl. by rewrite Ht.
    + by rewrite Hroles.
  - intros Hcontent Hstored Hhead Halt.
    apply buildGeminiHistory_fixed; [done | done |].
    by apply stored_roles_alternate.
Qed.

Lemma normalizer_idempotent_witness :
  buildGeminiHistory alternating_log = turn_of <$> alternating_log.
Proof.
  apply (proj2 (normalizer_idempotent alternating_log)).
  - repeat constructor.
  - unfold alternating_log.
    repeat (apply Forall_cons; split); try apply Forall_nil;
      unfold stored_role; simpl; auto.
  - by intros m [= <-].
  - reflexivity.
Defined.

(** A role outside the stored ones is mapped to "user" as well, so a log
    that alternates between "user" and such a role is not a fixed point. *)
Example other_role_collapses :
  buildGeminiHistory
    [ Message.mk "user" (JS.Str "hi"); Message.mk "system" (JS.Str "note") ] =
  [ Turn.mk "user" [ {| text := JS.Str "hi" |} ] ].
Proof. reflexivity. Qed.

End NormalizerClaims.

(** ** The normalizer on the store *)

Section StoreFacts.

Implicit Types (h : gmap positive Store.array) (l : positive).

Lemma alloc_fresh (a : Store.array) h :
  exists l, Store.alloc a h = Some (l, <[l := a]> h) /\ h !! l = None.
Proof.
  exists (fresh (dom h)). split; [done|].
  apply not_elem_of_dom, is_fresh.
Qed.

Lemma read_messages_at l h items :
  h !! l = Some (Store.Messages items) ->
  Store.read_messages l h = Some (items, h).
Proof. unfold Store.read_messages. by intros ->. Qed.

(** The loop only ever writes to [filteredHistory], and what it leaves there
    is what the pure walk computes. *)
Lemma store_history_loop filteredHistory msgs lastRole h pushed :
  h !! filteredHistory = Some (Store.Turns pushed) ->
  Store.history_loop filteredHistory msgs lastRole h =
  Some (last_role_after lastRole msgs,
        <[filteredHistory := Store.Turns (pushed ++ walk lastRole msgs)]> h).
Proof.
  revert lastRole h pushed.
  induction msgs as [|msg rest IH]; intros lastRole h pushed Hh; simpl.
  - unfold Store.ret. rewrite app_nil_r. by rewrite insert_id.
  - destruct (same_role (currentRole msg) lastRole); [by apply IH|].
    unfold Store.bind, Store.push. rewrite Hh.
    rewrite (IH _ _ (pushed ++ [turn_of msg])) by apply lookup_insert_eq.
    by rewrite insert_insert_eq, <- app_assoc.
Qed.

End StoreFacts.

Section StoreClaims.

(** C9: [buildGeminiHistory] does not change its input: run on a store, it
    terminates for every array of messages, leaves that array and every
    other object that existed as it was, and returns a new array whose
    contents are a function of the input's contents alone. *)
Theorem buildGeminiHistory_pure (h : gmap positive Store.array)
  (messages : positive) (msgs : list Message.t) :
  h !! messages = Some (Store.Messages msgs) ->
  exists filteredHistory h',
    Store.buildGeminiHistory messages h = Some (filteredHistory, h') /\
    h !! filteredHistory = None /\
    h' !! filteredHistory = Some (Store.Turns (buildGeminiHistory msgs)) /\
    h' !! messages = Some (Store.Messages msgs) /\
    (forall l, is_Some (h !! l) -> h' !! l = h !! l).
Proof.
  intros Hin.
  unfold Store.buildGeminiHistory, Store.filter, Store.findIndex,
    Store.slice_from, Store.bind at 1 2.
  rewrite (read_messages_at _ _ _ Hin).
  destruct (alloc_fresh
              (Store.Messages (JS.filter (fun m => JS.truthy (Message.content m)) msgs)) h)
    as (valid & -> & Hvalid).
  set (validMessages := JS.filter _ msgs).
  set (h1 := <[valid := Store.Messages validMessages]> h).
  assert (Hv1 : h1 !! valid = Some (Store.Messages validMessages))
    by apply lookup_insert_eq.
  unfold Store.bind at 1 2. rewrite (read_messages_at _ _ _ Hv1).
  unfold Store.ret at 1. unfold buildGeminiHistory. fold validMessages.
  assert (Hframe1 : forall l, is_Some (h !! l) -> h1 !! l = h !! l).
  { intros l [a Hl]. unfold h1. rewrite lookup_insert_ne; [done|]. congruence. }
  destruct (Z.eqb (JS.findIndex _ validMessages) (-1)).
  - destruct (alloc_fresh (Store.Turns []) h1) as (out & -> & Hout).
    assert (Hout0 : h !! out = None).
    { destruct (h !! out) eqn:E; [|done].
      rewrite <- (Hframe1 out) in E by eauto. congruence. }
    exists out, (<[out := Store.Turns []]> h1).
    split; [done|]. split; [done|]. split; [apply lookup_insert_eq|].
    assert (Hframe : forall l, is_Some (h !! l) ->
              <[out := Store.Turns []]> h1 !! l = h !! l).
    { intros l Hl. rewrite lookup_insert_ne; [by apply Hframe1|].
      destruct Hl as [a Hl]. congruence. }
    split; [|done]. rewrite Hframe; [done | eauto].
  - unfold Store.bind at 1 2. rewrite (read_messages_at _ _ _ Hv1).
    set (sliced := JS.slice_from validMessages _).
    destruct (alloc_fresh (Store.Messages sliced) h1) as (rah & -> & Hrah).
    set (h2 := <[rah := Store.Messages sliced]> h1).
    unfold Store.bind at 1.
    destruct (alloc_fresh (Store.Turns []) h2) as (out & -> & Hout).
    set (h3 := <[out := Store.Turns []]> h2).
    assert (Hne : rah <> out).
    { intros ->. unfold h2 in Hout. by rewrite lookup_insert_eq in Hout. }
    assert (Hr3 : h3 !! rah = Some (Store.Messages sliced)).
    { unfold h3, h2. rewrite lookup_insert_ne by congruence. apply lookup_insert_eq. }
    unfold Store.bind at 1. rewrite (read_messages_at _ _ _ Hr3).
    unfold Store.bind at 1.
    rewrite (store_history_loop out sliced None h3 []) by apply lookup_insert_eq.
    unfold Store.ret. rewrite history_loop_walk. cbn [snd app].
    assert (Hframe2 : forall l, is_Some (h !! l) -> h2 !! l = h !! l).
    { intros l Hl. unfold h2. rewrite lookup_insert_ne; [by apply Hframe1|].
      intros ->. rewrite <- Hframe1 in Hl by done. rewrite Hrah in Hl.
      by destruct Hl. }
    assert (Hout0 : h !! out = None).
    { destruct (h !! out) eqn:E; [|done].
      rewrite <- (Hframe2 out) in E by eauto. congruence. }
    assert (Hframe : forall l, is_Some (h !! l) ->
              <[out := Store.Turns (walk None sliced)]> h3 !! l = h !! l).
    { intros l Hl. unfold h3. rewrite insert_insert_eq.
      rewrite lookup_insert_ne; [by apply Hframe2|].
      intros ->. rewrite Hout0 in Hl. by destruct Hl. }
    eexists out, _. split; [done|]. split; [done|].
    split; [apply lookup_insert_eq|].
    split; [|done]. rewrite Hframe; [done | eauto].
Qed.

Lemma buildGeminiHistory_pure_witness :
  exists filteredHistory h',
    Store.buildGeminiHistory 1%positive
      {[ 1%positive := Store.Messages scenario_input ]} =
      Some (filteredHistory, h') /\
    h' !! filteredHistory = Some (Store.Turns scenario_output) /\
    h' !! 1%positive = Some (Store.Messages scenario_input).
Proof.
  destruct (buildGeminiHistory_pure
              {[ 1%positive := Store.Messages scenario_input ]} 1%positive
              scenario_input) as (out & h' & Hrun & _ & Hout & Hin & _).
  - apply lookup_singleton_eq.
  - exists out, h'. repeat split; done.
Defined.

End StoreClaims.

(** ** The fallback loop *)

Section OrchestratorFacts.

Context {W Chat : Type}.
Variable startChat : string -> list Turn.t -> W -> (Chat + Err.t) * W.
Variable sendMessage : Chat -> JS.value -> W -> (string + Err.t) * W.

Abbreviation attempt_with := (try_block W Chat startChat sendMessage).
Abbreviation loop := (model_loop W Chat startChat sendMessage).
Abbreviation respond := (getGeminiAPIResponse W Chat startChat sendMessage).

Implicit Types (st : state W) (models : list string) (a : attempt).

Lemma is_rate_limit_contains err :
  is_rate_limit err = true <-> contains (Err.message err) "429".
Proof.
  unfold is_rate_limit. rewrite andb_true_iff, includes_contains. split.
  - by intros [_ ?].
  - intros H. split; [|done]. destruct H as (before & after & ->).
    by destruct before.
Qed.

(** The prompt handed on is the content of [newPromptMsg]; a pass that
    hands on none has failed. *)
Lemma try_block_prompt modelName geminiHistory newPromptMsg w res sent w' :
  attempt_with modelName geminiHistory newPromptMsg w = (res, sent, w') ->
  sent = Message.content <$> newPromptMsg \/
  (sent = None /\ exists err, res = inr err).
Proof.
  unfold try_block.
  destruct (startChat modelName geminiHistory w) as [[chat|err] w1].
  - destruct newPromptMsg as [msg|].
    + destruct (sendMessage chat (Message.content msg) w1). intros [= <- <- <-].
      by left.
    + intros [= <- <- <-]. by left.
  - intros [= <- <- <-]. right. eauto.
Qed.

Lemma last_error_snoc known tried a :
  last_error known (tried ++ [a]) =
  match att_result a with
  | inr err => Some err
  | inl _ => last_error known tried
  end.
Proof. unfold last_error. by rewrite fold_left_app. Qed.

(** One pass of the loop body on a failure that is a rate limit: the error
    is stored and the loop goes on with the models that remain. *)
Lemma model_loop_rate_limited modelName rest geminiHistory newPromptMsg known st
      err sent w' :
  attempt_with modelName geminiHistory newPromptMsg (world st) = (inr err, sent, w') ->
  is_rate_limit err = true ->
  exists st',
    loop (modelName :: rest) geminiHistory newPromptMsg known st =
      loop rest geminiHistory newPromptMsg (Some err) st' /\
    world st' = w' /\
    attempts st' = attempts st ++
      [ {| att_model := modelName; att_history := geminiHistory;
           att_prompt := sent; att_result := inr err |} ].
Proof.
  intros Htry Hrate. cbn [model_loop]. cbn [print world].
  rewrite Htry, Hrate. eexists. split; [reflexivity|]. done.
Qed.

(** One pass on any other failure: the loop is left by throwing it. *)
Lemma model_loop_non_recoverable modelName rest geminiHistory newPromptMsg known st
      err sent w' :
  attempt_with modelName geminiHistory newPromptMsg (world st) = (inr err, sent, w') ->
  is_rate_limit err = false ->
  exists st',
    loop (modelName :: rest) geminiHistory newPromptMsg known st =
      (Thrown err, st') /\
    world st' = w' /\
    attempts st' = attempts st ++
      [ {| att_model := modelName; att_history := geminiHistory;
           att_prompt := sent; att_result := inr err |} ].
Proof.
  intros Htry Hrate. cbn [model_loop]. cbn [print world].
  rewrite Htry, Hrate. eexists. split; [reflexivity|]. done.
Qed.

(** One pass that succeeds: the loop is left by returning the text. *)
Lemma model_loop_success modelName rest geminiHistory newPromptMsg known st
      text sent w' :
  attempt_with modelName geminiHistory newPromptMsg (world st) = (inl text, sent, w') ->
  exists st',
    loop (modelName :: rest) geminiHistory newPromptMsg known st =
      (Returned text, st') /\
    world st' = w' /\
    attempts st' = attempts st ++
      [ {| att_model := modelName; att_history := geminiHistory;
           att_prompt := sent; att_result := inl text |} ].
Proof.
  intros Htry. cbn [model_loop]. cbn [print world].
  rewrite Htry. eexists. split; [reflexivity|]. done.
Qed.

(** What a whole run of the loop leaves behind. *)
Lemma model_loop_spec models geminiHistory newPromptMsg known st exit st' :
  loop models geminiHistory newPromptMsg known st = (exit, st') ->
  exists tried,
    attempts st' = attempts st ++ tried /\
    (att_model <$> tried) `prefix_of` models /\
    Forall (fun a => att_history a = geminiHistory /\
                     (att_prompt a = Message.content <$> newPromptMsg \/
                      (att_prompt a = None /\ exists err, att_result a = inr err)))
           tried /\
    match exit with
    | Returned text =>
        exists before a, tried = before ++ [a] /\
          forallb rate_limited before = true /\ att_result a = inl text
    | Thrown err =>
        exists before a, tried = before ++ [a] /\
          forallb rate_limited before = true /\
          att_result a = inr err /\ is_rate_limit err = false
    | Finished lastKnownError =>
        att_model <$> tried = models /\ forallb rate_limited tried = true /\
        lastKnownError = last_error known tried
    end.
Proof.
  revert known st exit st'.
  induction models as [|modelName rest IH]; intros known st exit st'.
  - intros [= <- <-]. exists []. rewrite app_nil_r. repeat split; done.
  - destruct (attempt_with modelName geminiHistory newPromptMsg (world st))
      as [[res sent] w'] eqn:Htry.
    pose proof (try_block_prompt _ _ _ _ _ _ _ Htry) as Hsent.
    destruct res as [text|err]; [|destruct (is_rate_limit err) eqn:Hrate].
    + destruct (model_loop_success _ rest _ _ known _ _ _ _ Htry)
        as (st1 & -> & _ & Hatt).
      intros [= <- <-]. eexists [_]. split; [exact Hatt|].
      split; [apply prefix_cons, prefix_nil|].
      split; [apply Forall_singleton; by split|]. by eexists [], _.
    + destruct (model_loop_rate_limited _ rest _ _ known _ _ _ _ Htry Hrate)
        as (st1 & -> & _ & Hatt).
      intros Hrest.
      destruct (IH _ _ _ _ Hrest) as (tried & Htried & Hpre & Hall & Hexit).
      eexists (_ :: tried). rewrite Htried, Hatt, <- app_assoc.
      split; [reflexivity|]. split; [by apply prefix_cons|].
      split; [apply Forall_cons; split; [by split | done]|].
      destruct exit as [text|err'|known'].
      * destruct Hexit as (before & a & -> & Hbefore & Ha).
        eexists (_ :: before), a. repeat split; [|done].
        cbn [forallb rate_limited att_result]. by rewrite Hrate, Hbefore.
      * destruct Hexit as (before & a & -> & Hbefore & Ha).
        eexists (_ :: before), a. repeat split; [| apply Ha | apply Ha].
        cbn [forallb rate_limited att_result]. by rewrite Hrate, Hbefore.
      * destruct Hexit as (Hmodels & Hrl & ->). repeat split.
        -- rewrite fmap_cons. by rewrite Hmodels.
        -- cbn [forallb rate_limited att_result]. by rewrite Hrate, Hrl.
    + destruct (model_loop_non_recoverable _ rest _ _ known _ _ _ _ Htry Hrate)
        as (st1 & -> & _ & Hatt).
      intros [= <- <-]. eexists [_]. split; [exact Hatt|].
      split; [apply prefix_cons, prefix_nil|].
      split; [apply Forall_singleton; by split|]. by eexists [], _.
Qed.

Ltac not_printed :=
  unfold exhausted_line in *;
  rewrite ?elem_of_app, ?elem_of_cons, ?elem_of_nil;
  intuition congruence.

(** The loop itself never prints the line that precedes the final throw. *)
Lemma model_loop_console models geminiHistory newPromptMsg known st exit st' :
  loop models geminiHistory newPromptMsg known st = (exit, st') ->
  exists lines, console st' = console st ++ lines /\ exhausted_line ∉ lines.
Proof.
  revert known st exit st'.
  induction models as [|modelName rest IH]; intros known st exit st'.
  - intros [= <- <-]. exists []. rewrite app_nil_r. split; [done|].
    apply not_elem_of_nil.
  - cbn [model_loop].
    destruct (attempt_with modelName geminiHistory newPromptMsg _)
      as [[res sent] w'] eqn:Htry.
    destruct res as [text|err]; [|destruct (is_rate_limit err) eqn:Hrate].
    + intros [= <- <-]. cbn [print console]. rewrite <- app_assoc.
      eexists. split; [reflexivity|]. not_printed.
    + intros Hrest. destruct (IH _ _ _ _ Hrest) as (lines & -> & Hlines).
      cbn [print console]. rewrite <- !app_assoc.
      eexists. split; [reflexivity|]. not_printed.
    + intros [= <- <-]. cbn [print console]. rewrite <- !app_assoc.
      eexists. split; [reflexivity|]. not_printed.
Qed.

(** The function is its loop followed by the final throw. *)
Lemma respond_unfold messages w :
  exists exit st1,
    loop MODELS_TO_TRY (buildGeminiHistory (JS.slice messages 0 (-1)))
      (JS.index messages (Z.of_nat (length messages) - 1)) None
      {| world := w; attempts := []; console := [] |} = (exit, st1) /\
    respond messages w =
      match exit with
      | Returned text => (Resolved text, st1)
      | Thrown err => (Rejected err, st1)
      | Finished lastKnownError => all_failed W lastKnownError st1
      end.
Proof.
  unfold getGeminiAPIResponse.
  destruct (loop MODELS_TO_TRY _ _ None _) as [exit st1].
  exists exit, st1. split; [done|]. by destruct exit.
Qed.

Lemma all_failed_state known st :
  attempts (snd (all_failed W known st)) = attempts st /\
  console (snd (all_failed W known st)) = console st ++ [exhausted_line].
Proof. unfold all_failed. by destruct known. Qed.

Lemma rate_limited_inside (before after : list attempt) a :
  forallb rate_limited (before ++ a :: after) = true -> rate_limited a = true.
Proof.
  rewrite forallb_app. cbn [forallb].
  by intros [_ [? _]%andb_true_iff]%andb_true_iff.
Qed.

(** Where an element of a list with a known last element can sit. *)
Lemma split_at_last {A} (before after front : list A) (a z : A) :
  before ++ a :: after = front ++ [z] ->
  (after = [] /\ before = front /\ a = z) \/
  (exists after', after = after' ++ [z] /\ front = before ++ a :: after').
Proof.
  destruct after as [|x after' _] using rev_ind.
  - intros [-> ->]%app_inj_tail. by left.
  - rewrite app_comm_cons, app_assoc. intros [<- ->]%app_inj_tail.
    right. by exists after'.
Qed.

(** A whole call, in terms of what was tried and how the loop was left. *)
Lemma respond_spec messages w :
  exists exit,
    (att_model <$> attempts (snd (respond messages w))) `prefix_of` MODELS_TO_TRY /\
    Forall (fun a =>
              att_history a = buildGeminiHistory (JS.slice messages 0 (-1)) /\
              (att_prompt a = Message.content <$>
                                JS.index messages (Z.of_nat (length messages) - 1) \/
               (att_prompt a = None /\ exists err, att_result a = inr err)))
           (attempts (snd (respond messages w))) /\
    (exhausted_line ∈ console (snd (respond messages w)) <->
     exists known, exit = Finished known) /\
    match exit with
    | Returned text =>
        fst (respond messages w) = Resolved text /\
        exists before a, attempts (snd (respond messages w)) = before ++ [a] /\
          forallb rate_limited before = true /\ att_result a = inl text
    | Thrown err =>
        fst (respond messages w) = Rejected err /\
        exists before a, attempts (snd (respond messages w)) = before ++ [a] /\
          forallb rate_limited before = true /\
          att_result a = inr err /\ is_rate_limit err = false
    | Finished known =>
        fst (respond messages w) = fst (all_failed W known (snd (respond messages w))) /\
        att_model <$> attempts (snd (respond messages w)) = MODELS_TO_TRY /\
        forallb rate_limited (attempts (snd (respond messages w))) = true /\
        known = last_error None (attempts (snd (respond messages w)))
    end.
Proof.
  destruct (respond_unfold messages w) as (exit & st1 & Hloop & Hrun).
  destruct (model_loop_spec _ _ _ _ _ _ _ Hloop) as (tried & Htried & Hpre & Hall & Hexit).
  destruct (model_loop_console _ _ _ _ _ _ _ Hloop) as (lines & Hlines & Hnot).
  cbn [attempts console app] in Htried, Hlines.
  exists exit. rewrite Hrun.
  destruct exit as [text|err|known]; cbn [fst snd].
  - rewrite Htried, Hlines.
    split; [done|]. split; [done|].
    split; [split; [done | by intros [? ?]]|]. by split.
  - rewrite Htried, Hlines.
    split; [done|]. split; [done|].
    split; [split; [done | by intros [? ?]]|]. by split.
  - destruct (all_failed_state known st1) as [-> ->].
    rewrite Htried, Hlines.
    split; [done|]. split; [done|].
    split; [split; [eauto | intros _; apply elem_of_app; right; by left]|].
    split; [unfold all_failed; by destruct known | apply Hexit].
Qed.

End OrchestratorFacts.

Section OrchestratorClaims.

Context {W Chat : Type}.
Variable startChat : string -> list Turn.t -> W -> (Chat + Err.t) * W.
Variable sendMessage : Chat -> JS.value -> W -> (string + Err.t) * W.

Abbreviation attempt_with := (try_block W Chat startChat sendMessage).
Abbreviation loop := (model_loop W Chat startChat sendMessage).
Abbreviation respond := (getGeminiAPIResponse W Chat startChat sendMessage).

Implicit Types (st : state W) (a : attempt) (w : W).
Implicit Types (messages history : list Message.t) (prompt : Message.t).

Lemma ends_not_rate_limited (before : list attempt) a :
  rate_limited a = false -> forallb rate_limited (before ++ [a]) = false.
Proof.
  intros Ha. destruct (forallb _ _) eqn:E; [|done].
  apply rate_limited_inside in E. congruence.
Qed.

Lemma exhausted_last known (tried : list attempt) :
  att_model <$> tried = MODELS_TO_TRY ->
  forallb rate_limited tried = true ->
  exists a err, last tried = Some a /\ att_result a = inr err /\
                last_error known tried = Some err.
Proof.
  destruct tried as [|a1 [|a2 [|a3 [|a4 tried]]]]; try done.
  intros _ Hall. pose proof (rate_limited_inside [a1; a2] [] a3 Hall) as H3.
  unfold rate_limited in H3. destruct (att_result a3) as [|err] eqn:E3; [done|].
  exists a3, err. split; [done|]. split; [done|].
  change [a1; a2; a3] with ([a1; a2] ++ [a3]).
  by rewrite last_error_snoc, E3.
Qed.

(** C2: an error raised by an attempt counts as a rate limit exactly when
    its message contains "429"; such an error is stored as the last known
    one and the loop goes on with the next model, whereas any other error
    ends the call at once: it is the rejection the caller sees, unchanged,
    and no further model is tried. *)
Theorem rate_limit_continues_other_errors_abort :
  (forall err, is_rate_limit err = true <-> contains (Err.message err) "429") /\
  (forall modelName rest geminiHistory newPromptMsg known st err sent w',
      attempt_with modelName geminiHistory newPromptMsg (world st) =
        (inr err, sent, w') ->
      exists st',
        world st' = w' /\
        attempts st' = attempts st ++
          [ {| att_model := modelName; att_history := geminiHistory;
               att_prompt := sent; att_result := inr err |} ] /\
        if is_rate_limit err then
          loop (modelName :: rest) geminiHistory newPromptMsg known st =
          loop rest geminiHistory newPromptMsg (Some err) st'
        else
          loop (modelName :: rest) geminiHistory newPromptMsg known st =
          (Thrown err, st')) /\
  (forall messages w before a after err,
      attempts (snd (respond messages w)) = before ++ a :: after ->
      att_result a = inr err ->
      if is_rate_limit err then
        after = [] ->
        att_model <$> before ++ [a] = MODELS_TO_TRY /\
        fst (respond messages w) = Rejected (new_Error (unavailable_message err))
      else
        after = [] /\ fst (respond messages w) = Rejected err).
Proof.
  split; [apply is_rate_limit_contains|]. split.
  - intros modelName rest geminiHistory newPromptMsg known st err sent w' Htry.
    destruct (is_rate_limit err) eqn:Hrate.
    + destruct (model_loop_rate_limited startChat sendMessage _ rest _ _ known
                  _ _ _ _ Htry Hrate) as (st' & ? & ? & ?). by exists st'.
    + destruct (model_loop_non_recoverable startChat sendMessage _ rest _ _ known
                  _ _ _ _ Htry Hrate) as (st' & ? & ? & ?). by exists st'.
  - intros messages w before a after err Htried Hres.
    destruct (respond_spec startChat sendMessage messages w)
      as (exit & _ & _ & _ & Hexit).
    assert (Ha : rate_limited a = is_rate_limit err)
      by (unfold rate_limited; by rewrite Hres).
    rewrite Htried in Hexit.
    destruct (is_rate_limit err) eqn:Hrate.
    + intros ->. destruct exit as [text|err'|known].
      * destruct Hexit as (_ & front & z & [_ ->]%app_inj_tail & _ & Hz). congruence.
      * destruct Hexit as (_ & front & z & [_ ->]%app_inj_tail & _ & Hz & Hrate').
        congruence.
      * destruct Hexit as (Hout & Hmodels & _ & ->). split; [done|].
        rewrite Hout. by rewrite last_error_snoc, Hres.
    + destruct exit as [text|err'|known].
      * destruct Hexit as (_ & front & z & Hsplit & Hfront & Hz).
        apply split_at_last in Hsplit as [(_ & _ & ->)|(after' & _ & ->)];
          [congruence|].
        apply rate_limited_inside in Hfront. congruence.
      * destruct Hexit as (Hout & front & z & Hsplit & Hfront & Hz & _).
        apply split_at_last in Hsplit as [(-> & _ & ->)|(after' & _ & ->)].
        -- split; [done|]. rewrite Hout. congruence.
        -- apply rate_limited_inside in Hfront. congruence.
      * destruct Hexit as (_ & _ & Hall & _).
        apply rate_limited_inside in Hall. congruence.
Qed.

(** C3: for a non-empty message list the last message is the prompt,
    whatever its role, and the messages before it, normalised, are the
    history of every attempt; the first attempt that succeeds ends the call
    with its text, and no further model is tried. *)
Theorem last_message_is_prompt_first_success_returns history prompt w :
  JS.index (history ++ [prompt])
           (Z.of_nat (length (history ++ [prompt])) - 1) = Some prompt /\
  JS.slice (history ++ [prompt]) 0 (-1) = history /\
  Forall (fun a =>
            att_history a = buildGeminiHistory history /\
            (att_prompt a = Some (Message.content prompt) \/
             (att_prompt a = None /\ exists err, att_result a = inr err)))
         (attempts (snd (respond (history ++ [prompt]) w))) /\
  (forall before a after text,
      attempts (snd (respond (history ++ [prompt]) w)) = before ++ a :: after ->
      att_result a = inl text ->
      after = [] /\
      fst (respond (history ++ [prompt]) w) = Resolved text /\
      att_prompt a = Some (Message.content prompt) /\
      forallb rate_limited before = true).
Proof.
  destruct (respond_spec startChat sendMessage (history ++ [prompt]) w)
    as (exit & _ & Hall & _ & Hexit).
  rewrite index_last, slice_all_but_last in Hall. cbn [fmap option_fmap option_map] in Hall.
  split; [apply index_last|]. split; [apply slice_all_but_last|].
  split; [exact Hall|].
  intros before a after text Htried Hres.
  assert (Ha : rate_limited a = false) by (unfold rate_limited; by rewrite Hres).
  assert (Hprompt : att_prompt a = Some (Message.content prompt)).
  { rewrite Htried in Hall. apply Forall_app in Hall as [_ Hall].
    apply Forall_cons in Hall as [[_ [?|(_ & err & ?)]] _]; [done | congruence]. }
  rewrite Htried in Hexit. destruct exit as [text'|err|known].
  - destruct Hexit as (Hout & front & z & Hsplit & Hfront & Hz).
    apply split_at_last in Hsplit as [(-> & -> & ->)|(after' & _ & ->)].
    + repeat split; try done. rewrite Hout. congruence.
    + apply rate_limited_inside in Hfront. congruence.
  - destruct Hexit as (_ & front & z & Hsplit & Hfront & Hz & _).
    apply split_at_last in Hsplit as [(_ & _ & ->)|(after' & _ & ->)];
      [congruence|].
    apply rate_limited_inside in Hfront. congruence.
  - destruct Hexit as (_ & _ & Hrl & _).
    apply rate_limited_inside in Hrl. congruence.
Qed.

(** C4: when every model of the list has been tried and every attempt
    failed with a rate limit, the call fails with the error "All Gemini
    models are unavailable" around the message of the last error; and the
    final throw is reached in that case only. *)
Theorem all_models_unavailable_only_after_all_rate_limited messages w :
  (exhausted_line ∈ console (snd (respond messages w)) <->
   att_model <$> attempts (snd (respond messages w)) = MODELS_TO_TRY /\
   forallb rate_limited (attempts (snd (respond messages w))) = true) /\
  (att_model <$> attempts (snd (respond messages w)) = MODELS_TO_TRY ->
   forallb rate_limited (attempts (snd (respond messages w))) = true ->
   exists a err,
     last (attempts (snd (respond messages w))) = Some a /\
     att_result a = inr err /\
     fst (respond messages w) =
       Rejected (new_Error ("All Gemini models are unavailable. Last error: "
                            +:+ Err.message err))).
Proof.
  destruct (respond_spec startChat sendMessage messages w)
    as (exit & _ & _ & Hline & Hexit).
  assert (Hfinished : forallb rate_limited (attempts (snd (respond messages w))) = true ->
            exists known, exit = Finished known).
  { intros Hall. destruct exit as [text|err|known]; [| |eauto].
    - destruct Hexit as (_ & front & z & Hsplit & _ & Hz). rewrite Hsplit in Hall.
      rewrite ends_not_rate_limited in Hall; [done|].
      unfold rate_limited. by rewrite Hz.
    - destruct Hexit as (_ & front & z & Hsplit & _ & Hz & Hrate).
      rewrite Hsplit in Hall. rewrite ends_not_rate_limited in Hall; [done|].
      unfold rate_limited. by rewrite Hz. }
  split.
  - rewrite Hline. split.
    + intros [known ->]. split; apply Hexit.
    + intros [_ Hall]. by apply Hfinished.
  - intros Hmodels Hall. destruct (Hfinished Hall) as [known ->].
    destruct Hexit as (Hout & _ & _ & Hknown).
    destruct (exhausted_last None _ Hmodels Hall) as (a & err & Hlast & Hres & Herr).
    exists a, err. split; [done|]. split; [done|].
    rewrite Hout, Hknown, Herr. done.
Qed.

(** C10: a call makes between one and three attempts, on the models of
    the list ["gemini-2.5-pro"; "gemini-2.5-flash"; "gemini-2.5-flash-lite"]
    in that order and each at most once, and then settles: it resolves with
    a text or rejects with an error. *)
Theorem at_most_one_attempt_per_model_in_order messages w :
  MODELS_TO_TRY = [ "gemini-2.5-pro"; "gemini-2.5-flash"; "gemini-2.5-flash-lite" ] /\
  (att_model <$> attempts (snd (respond messages w))) `prefix_of` MODELS_TO_TRY /\
  (1 <= length (attempts (snd (respond messages w))) <= 3)%nat /\
  NoDup (att_model <$> attempts (snd (respond messages w))) /\
  ((exists text, fst (respond messages w) = Resolved text) \/
   (exists err, fst (respond messages w) = Rejected err)).
Proof.
  destruct (respond_spec startChat sendMessage messages w)
    as (exit & Hpre & _ & _ & Hexit).
  split; [done|]. split; [done|]. split; [|split].
  - split.
    + destruct exit as [text|err|known].
      * destruct Hexit as (_ & front & z & -> & _). rewrite length_app. simpl. lia.
      * destruct Hexit as (_ & front & z & -> & _). rewrite length_app. simpl. lia.
      * destruct Hexit as (_ & Hmodels & _).
        apply (f_equal length) in Hmodels. rewrite length_fmap in Hmodels.
        rewrite Hmodels. simpl. lia.
    + apply prefix_length in Hpre. rewrite length_fmap in Hpre. exact Hpre.
  - destruct Hpre as [later Hpre].
    assert (Hnodup : NoDup MODELS_TO_TRY).
    { unfold MODELS_TO_TRY. repeat (apply NoDup_cons; split);
        rewrite ?elem_of_cons, ?elem_of_nil; [ | | | apply NoDup_nil_2];
        intuition congruence. }
    rewrite Hpre in Hnodup. by apply NoDup_app in Hnodup as [? _].
  - destruct (fst (respond messages w)) as [text|err]; eauto.
Qed.

(** C6: when no message with content has role "user" (so in particular
    when no message at all has it) the normalizer returns the empty history,
    and the fallback loop runs on that empty history as on any other. *)
Theorem no_user_message_gives_empty_history history prompt w :
  Forall (fun m => JS.truthy (Message.content m) = true ->
                   Message.role m <> "user") history ->
  buildGeminiHistory history = [] /\
  attempts (snd (respond (history ++ [prompt]) w)) <> [] /\
  Forall (fun a => att_history a = [])
         (attempts (snd (respond (history ++ [prompt]) w))).
Proof.
  intros Hno. pose proof (buildGeminiHistory_no_user history Hno) as Hempty.
  split; [done|].
  destruct (respond_spec startChat sendMessage (history ++ [prompt]) w)
    as (exit & _ & Hall & _ & Hexit).
  rewrite slice_all_but_last, Hempty in Hall. split.
  - destruct exit as [text|err|known].
    + destruct Hexit as (_ & front & z & -> & _). by destruct front.
    + destruct Hexit as (_ & front & z & -> & _). by destruct front.
    + destruct Hexit as (_ & Hmodels & _). by intros Hnil; rewrite Hnil in Hmodels.
  - eapply Forall_impl; [exact Hall|]. by intros a [? _].
Qed.

End OrchestratorClaims.

(** ** The design document's scenarios, run on the scripted world *)

Section Scenarios.

Import Scripted.

Lemma rate_limit_continues_other_errors_abort_witness :
  attempts (snd (run chat_log [inr too_many; inr unauthorized])) =
    [ tried "gemini-2.5-pro" (inr too_many);
      tried "gemini-2.5-flash" (inr unauthorized) ] /\
  fst (run chat_log [inr too_many; inr unauthorized]) = Rejected unauthorized.
Proof.
  split; [reflexivity|].
  pose proof (proj2 (proj2 (rate_limit_continues_other_errors_abort
                              startChat sendMessage))
                chat_log [inr too_many; inr unauthorized]
                [tried "gemini-2.5-pro" (inr too_many)]
                (tried "gemini-2.5-flash" (inr unauthorized)) []
                unauthorized eq_refl eq_refl) as H.
  exact (proj2 H).
Defined.

Lemma last_message_is_prompt_first_success_returns_witness :
  fst (run (old_history ++ [question]) [inr too_many; inl "hello"]) =
    Resolved "hello" /\
  attempts (snd (run (old_history ++ [question]) [inr too_many; inl "hello"])) =
    [ tried "gemini-2.5-pro" (inr too_many);
      tried "gemini-2.5-flash" (inl "hello") ].
Proof.
  split; [|reflexivity].
  pose proof (proj2 (proj2 (proj2 (last_message_is_prompt_first_success_returns
                                     startChat sendMessage old_history question
                                     [inr too_many; inl "hello"])))
                [tried "gemini-2.5-pro" (inr too_many)]
                (tried "gemini-2.5-flash" (inl "hello")) [] "hello"
                eq_refl eq_refl) as H.
  exact (proj1 (proj2 H)).
Defined.

Lemma all_models_unavailable_only_after_all_rate_limited_witness :
  exists a err,
    last (attempts (snd (run chat_log [inr too_many; inr too_many; inr too_many]))) =
      Some a /\
    att_result a = inr err /\
    fst (run chat_log [inr too_many; inr too_many; inr too_many]) =
      Rejected (new_Error ("All Gemini models are unavailable. Last error: "
                           +:+ Err.message err)).
Proof.
  exact (proj2 (all_models_unavailable_only_after_all_rate_limited
                  startChat sendMessage chat_log
                  [inr too_many; inr too_many; inr too_many])
           eq_refl eq_refl).
Defined.

Lemma no_user_message_gives_empty_history_witness :
  buildGeminiHistory old_history = [] /\
  attempts (snd (run (old_history ++ [question]) [inl "answer"])) =
    [ tried "gemini-2.5-pro" (inl "answer") ].
Proof.
  split; [|reflexivity].
  refine (proj1 (no_user_message_gives_empty_history startChat sendMessage
                   old_history question [inl "answer"] _)).
  apply Forall_cons. split; [|apply Forall_nil_2].
  intros _. simpl. discriminate.
Defined.

End Scenarios.

(** ** More about the history normalizer *)

Section NormalizerShape.

Implicit Types (msg m : Message.t) (msgs messages : list Message.t).

Lemma findIndex_from_shift {A} (p : A -> bool) (arr : list A) (i k : Z) :
  0 <= i ->
  JS.findIndex_from p arr (i + k) =
  if Z.eqb (JS.findIndex_from p arr i) (-1) then -1
  else JS.findIndex_from p arr i + k.
Proof.
  revert i. induction arr as [|x rest IH]; intros i Hi; simpl; [done|].
  destruct (p x).
  - destruct (Z.eqb_spec i (-1)); [lia | done].
  - replace (i + k + 1) with (i + 1 + k) by lia. apply IH. lia.
Qed.

(** A message that is dropped by the filter, or kept but not from the
    user, in front of the list does not show in the result. *)
Lemma buildGeminiHistory_skip_head m messages :
  (has_content m = true -> Message.role m <> "user") ->
  buildGeminiHistory (m :: messages) = buildGeminiHistory messages.
Proof.
  intros Hm. unfold buildGeminiHistory. fold has_content. fold from_user.
  unfold JS.filter. cbn [List.filter].
  destruct (has_content m) eqn:Hc; [|done].
  assert (Hu : from_user m = false).
  { apply String.eqb_neq. by apply Hm. }
  unfold JS.findIndex. cbn [JS.findIndex_from]. rewrite Hu.
  rewrite (findIndex_from_shift from_user _ 0 1) by lia.
  set (valid := List.filter has_content messages).
  destruct (Z.eqb_spec (JS.findIndex_from from_user valid 0) (-1)) as [Hnone|Hsome];
    [done|].
  destruct (findIndex_from_found from_user valid 0)
    as (pre & first & post & Hsplit & _ & _ & Hix); [lia | done |].
  destruct (Z.eqb_spec (JS.findIndex_from from_user valid 0 + 1) (-1)); [lia|].
  f_equal. f_equal.
  rewrite !slice_from_drop.
  - rewrite Hix. replace (Z.to_nat (0 + Z.of_nat (length pre) + 1)) with (S (length pre)) by lia.
    replace (Z.to_nat (0 + Z.of_nat (length pre))) with (length pre) by lia. done.
  - rewrite Hix, Hsplit, length_app. lia.
  - rewrite Hix, Hsplit. cbn [length]. rewrite length_app. lia.
Qed.

Lemma walk_sublist lastRole msgs : walk lastRole msgs `sublist_of` (turn_of <$> msgs).
Proof.
  revert lastRole. induction msgs as [|msg rest IH]; intros lastRole; simpl; [done|].
  destruct (same_role (currentRole msg) lastRole).
  - apply sublist_cons, IH.
  - apply sublist_skip, IH.
Qed.

Lemma last_role_after_last lastRole msgs :
  last_role_after lastRole msgs =
  match last msgs with
  | Some m => Some (currentRole m)
  | None => lastRole
  end.
Proof.
  revert lastRole. induction msgs as [|msg rest IH]; intros lastRole; [done|].
  cbn [last_role_after].
  destruct (same_role (currentRole msg) lastRole) eqn:Hsame;
    rewrite IH, last_cons; destruct (last rest); try done.
  destruct lastRole as [r|]; [|done]. simpl in Hsame.
  by apply String.eqb_eq in Hsame as ->.
Qed.

Lemma last_role_after_walk lastRole msgs :
  last_role_after lastRole msgs =
  match last (walk lastRole msgs) with
  | Some t => Some (Turn.role t)
  | None => lastRole
  end.
Proof.
  revert lastRole. induction msgs as [|msg rest IH]; intros lastRole; [done|].
  cbn [last_role_after walk].
  destruct (same_role (currentRole msg) lastRole); [apply IH|].
  rewrite IH, last_cons.
  by destruct (last (walk (Some (currentRole msg)) rest)).
Qed.

(** X1: the result is empty exactly when no message with content has role
    "user". *)
Theorem buildGeminiHistory_empty_iff messages :
  buildGeminiHistory messages = [] <->
  Forall (fun m => JS.truthy (Message.content m) = true ->
                   Message.role m <> "user") messages.
Proof.
  split; [|apply buildGeminiHistory_no_user].
  destruct (buildGeminiHistory_cases messages)
    as [[Hnone _]|(pre & first & post & _ & _ & _ & ->)]; [|done].
  intros _. apply Forall_forall. intros m Hin Hc.
  rewrite Forall_forall in Hnone.
  assert (Hkept : m ∈ JS.filter has_content messages) by by apply filter_elem.
  apply Hnone in Hkept. by apply String.eqb_neq.
Qed.

(** X2: everything in front of the first message that has content and role
    "user" is dropped, and that message opens the history as a "user" turn
    with its content. *)
Theorem history_starts_at_first_user_message pre first rest :
  Forall (fun m => JS.truthy (Message.content m) = true ->
                   Message.role m <> "user") pre ->
  JS.truthy (Message.content first) = true ->
  Message.role first = "user" ->
  buildGeminiHistory (pre ++ first :: rest) = buildGeminiHistory (first :: rest) /\
  head (buildGeminiHistory (pre ++ first :: rest)) =
    Some (Turn.mk "user" [ {| text := Message.content first |} ]).
Proof.
  intros Hpre Hc Hu.
  assert (Hdrop : buildGeminiHistory (pre ++ first :: rest) =
                  buildGeminiHistory (first :: rest)).
  { induction Hpre as [|m pre Hm _ IH]; [done|].
    rewrite <- app_comm_cons. by rewrite buildGeminiHistory_skip_head. }
  split; [done|]. rewrite Hdrop.
  destruct (buildGeminiHistory_cases (first :: rest))
    as [[Hnone _]|(pre' & first' & post & Hsplit & Hpre' & _ & ->)].
  - unfold JS.filter in Hnone. cbn [List.filter] in Hnone.
    fold (has_content first) in Hc. rewrite Hc in Hnone.
    apply Forall_cons in Hnone as [Hfirst _]. unfold from_user in Hfirst.
    rewrite Hu in Hfirst. done.
  - unfold JS.filter in Hsplit. cbn [List.filter] in Hsplit.
    fold (has_content first) in Hc. rewrite Hc in Hsplit.
    destruct pre' as [|m pre'].
    + injection Hsplit as <- _. cbn [walk same_role head].
      unfold turn_of. by rewrite (currentRole_user _ Hu).
    + injection Hsplit as <- _. apply Forall_cons in Hpre' as [Hfirst _].
      unfold from_user in Hfirst. rewrite Hu in Hfirst. done.
Qed.

Lemma history_starts_at_first_user_message_witness :
  head (buildGeminiHistory
          ([Message.mk "assistant" (JS.Str "welcome"); Message.mk "user" JS.Null]
             ++ Message.mk "user" (JS.Str "hi") :: [Message.mk "assistant" (JS.Str "yo")])) =
    Some (Turn.mk "user" [ {| text := JS.Str "hi" |} ]).
Proof.
  refine (proj2 (history_starts_at_first_user_message
                   [Message.mk "assistant" (JS.Str "welcome"); Message.mk "user" JS.Null]
                   (Message.mk "user" (JS.Str "hi"))
                   [Message.mk "assistant" (JS.Str "yo")] _ eq_refl eq_refl)).
  apply Forall_cons. split; [by intros _|].
  apply Forall_cons. split; [by intros ?|]. apply Forall_nil_2.
Defined.

(** X3: the history is an order-preserving selection of the kept messages,
    each renamed by [turn_of]: nothing is reordered, duplicated or made up,
    and the result is never longer than the input. *)
Theorem history_is_selection_of_kept_messages messages :
  buildGeminiHistory messages
    `sublist_of` (turn_of <$> JS.filter has_content messages) /\
  (length (buildGeminiHistory messages) <= length messages)%nat.
Proof.
  assert (Hsub : buildGeminiHistory messages
                   `sublist_of` (turn_of <$> JS.filter has_content messages)).
  { destruct (buildGeminiHistory_cases messages)
      as [[_ ->]|(pre & first & post & -> & _ & _ & ->)]; [apply sublist_nil_l|].
    rewrite fmap_app. apply sublist_inserts_l, walk_sublist. }
  split; [done|].
  apply sublist_length in Hsub. rewrite length_fmap in Hsub.
  etrans; [exact Hsub|]. unfold JS.filter. apply List.filter_length_le.
Qed.

(** X4: a non-empty history ends with the mapped role of the last message
    that has content. *)
Theorem history_ends_with_role_of_last_kept_message messages :
  buildGeminiHistory messages <> [] ->
  last (Turn.role <$> buildGeminiHistory messages) =
  currentRole <$> last (JS.filter has_content messages).
Proof.
  destruct (buildGeminiHistory_cases messages)
    as [[_ ->]|(pre & first & post & -> & _ & _ & ->)]; [done|].
  intros _. rewrite last_app.
  pose proof (last_role_after_walk None (first :: post)) as Hwalk.
  rewrite last_role_after_last in Hwalk.
  rewrite fmap_last.
  destruct (last (first :: post)) as [m|] eqn:Hlast.
  - destruct (last (walk None (first :: post))) as [t|] eqn:Ht; [|done].
    simpl. congruence.
  - by rewrite last_cons in Hlast; destruct (last post).
Qed.

Lemma history_ends_with_role_of_last_kept_message_witness :
  last (Turn.role <$> buildGeminiHistory
          (scenario_input ++ [Message.mk "assistant" (JS.Str "ok");
                              Message.mk "user" JS.Undefined])) = Some "model".
Proof.
  rewrite history_ends_with_role_of_last_kept_message; [reflexivity | done].
Defined.

End NormalizerShape.

(** ** More about the fallback loop *)

Section OrchestratorShape.

Context {W Chat : Type}.
Variable startChat : string -> list Turn.t -> W -> (Chat + Err.t) * W.
Variable sendMessage : Chat -> JS.value -> W -> (string + Err.t) * W.

Abbreviation attempt_with := (try_block W Chat startChat sendMessage).
Abbreviation loop := (model_loop W Chat startChat sendMessage).
Abbreviation respond := (getGeminiAPIResponse W Chat startChat sendMessage).

Implicit Types (st : state W) (a : attempt) (w : W).
Implicit Types (messages history : list Message.t) (prompt : Message.t).

(** Without a prompt message the [try] block cannot succeed. *)
Lemma try_block_no_prompt modelName geminiHistory w res sent w' :
  attempt_with modelName geminiHistory None w = (res, sent, w') ->
  sent = None /\ exists err, res = inr err.
Proof.
  unfold try_block.
  destruct (startChat modelName geminiHistory w) as [[chat|err] w1];
    intros [= <- <- <-]; eauto.
Qed.

Lemma model_loop_no_prompt models geminiHistory known st exit st' :
  loop models geminiHistory None known st = (exit, st') ->
  (forall text, exit <> Returned text) /\
  exists tried, attempts st' = attempts st ++ tried /\
                Forall (fun a => att_prompt a = None) tried.
Proof.
  revert known st exit st'.
  induction models as [|modelName rest IH]; intros known st exit st'.
  - intros [= <- <-]. split; [done|]. exists []. by rewrite app_nil_r.
  - destruct (attempt_with modelName geminiHistory None (world st))
      as [[res sent] w'] eqn:Htry.
    destruct (try_block_no_prompt _ _ _ _ _ _ Htry) as (-> & err & ->).
    destruct (is_rate_limit err) eqn:Hrate.
    + destruct (model_loop_rate_limited startChat sendMessage _ rest _ _ known
                  _ _ _ _ Htry Hrate) as (st1 & -> & _ & Hatt).
      intros Hrest. destruct (IH _ _ _ _ Hrest) as (Hexit & tried & Htried & Hall).
      split; [done|]. eexists (_ :: tried).
      rewrite Htried, Hatt, <- app_assoc. split; [reflexivity|].
      apply Forall_cons. by split.
    + destruct (model_loop_non_recoverable startChat sendMessage _ rest _ _ known
                  _ _ _ _ Htry Hrate) as (st1 & -> & _ & Hatt).
      intros [= <- <-]. split; [done|]. eexists [_]. split; [exact Hatt|].
      by apply Forall_singleton.
Qed.

(** The [try] block reads nothing of the prompt message but its content. *)
Lemma try_block_content modelName geminiHistory prompt1 prompt2 w :
  Message.content prompt1 = Message.content prompt2 ->
  attempt_with modelName geminiHistory (Some prompt1) w =
  attempt_with modelName geminiHistory (Some prompt2) w.
Proof. unfold try_block. by intros ->. Qed.

Lemma model_loop_content models geminiHistory prompt1 prompt2 known st :
  Message.content prompt1 = Message.content prompt2 ->
  loop models geminiHistory (Some prompt1) known st =
  loop models geminiHistory (Some prompt2) known st.
Proof.
  intros Hc. revert known st.
  induction models as [|modelName rest IH]; intros known st; [done|].
  cbn [model_loop]. rewrite (try_block_content _ _ _ _ _ Hc).
  destruct (attempt_with _ _ _ _) as [[[text|err] sent] w']; [done|].
  destruct (is_rate_limit err); [apply IH | done].
Qed.

(** The console grows by the lines of the attempts made. *)
Lemma model_loop_lines models geminiHistory newPromptMsg known st exit st' :
  loop models geminiHistory newPromptMsg known st = (exit, st') ->
  exists tried,
    attempts st' = attempts st ++ tried /\
    console st' = console st ++ concat (attempt_lines <$> tried).
Proof.
  revert known st exit st'.
  induction models as [|modelName rest IH]; intros known st exit st'.
  - intros [= <- <-]. exists []. by rewrite !app_nil_r.
  - cbn [model_loop].
    destruct (attempt_with modelName geminiHistory newPromptMsg _)
      as [[res sent] w'] eqn:Htry.
    destruct res as [text|err]; [|destruct (is_rate_limit err) eqn:Hrate].
    + intros [= <- <-]. eexists [_]. cbn [print console attempts].
      split; [reflexivity|]. cbn. by rewrite <- !app_assoc.
    + intros Hrest. destruct (IH _ _ _ _ Hrest) as (tried & -> & ->).
      eexists (_ :: tried). cbn [print console attempts].
      rewrite <- !app_assoc. split; [reflexivity|].
      cbn. by rewrite Hrate.
    + intros [= <- <-]. eexists [_]. cbn [print console attempts].
      split; [reflexivity|]. cbn. rewrite Hrate. by rewrite <- !app_assoc.
Qed.

Lemma last_rate_limited (tried : list attempt) a :
  forallb rate_limited tried = true -> last tried = Some a -> rate_limited a = true.
Proof.
  intros Hall [front ->]%last_Some. by apply rate_limited_inside in Hall.
Qed.

(** X5: called with no message at all, the function never resolves: no
    attempt gets as far as sending a prompt, every chat is started on the
    empty history, and once a chat does start for the first model the call is
    rejected with the TypeError of reading [content] of [undefined], the other
    models untried. *)
Theorem empty_message_list_is_rejected w :
  (exists err, fst (respond [] w) = Rejected err) /\
  Forall (fun a => att_history a = [] /\ att_prompt a = None)
         (attempts (snd (respond [] w))) /\
  (forall chat w1,
      startChat "gemini-2.5-pro" [] w = (inl chat, w1) ->
      fst (respond [] w) = Rejected (TypeError_read "undefined" "content") /\
      attempts (snd (respond [] w)) =
        [ {| att_model := "gemini-2.5-pro"; att_history := [];
             att_prompt := None;
             att_result := inr (TypeError_read "undefined" "content") |} ] /\
      world (snd (respond [] w)) = w1).
Proof.
  split; [|split].
  - destruct (respond_unfold startChat sendMessage [] w) as (exit & st1 & Hloop & ->).
    change (JS.index [] _) with (@None Message.t) in Hloop.
    apply model_loop_no_prompt in Hloop as [Hexit _].
    destruct exit as [text|err|known].
    + by destruct (Hexit text).
    + by exists err.
    + unfold all_failed. destruct known; eauto.
  - destruct (respond_spec startChat sendMessage [] w) as (_ & _ & Hall & _).
    eapply Forall_impl; [exact Hall|].
    intros a [Hh [Hp|[Hp _]]]; split; done.
  - intros chat w1 Hstart. unfold getGeminiAPIResponse.
    change (JS.index [] _) with (@None Message.t).
    change (buildGeminiHistory (JS.slice [] 0 (-1))) with (@nil Turn.t).
    cbn [model_loop MODELS_TO_TRY print world]. unfold try_block. rewrite Hstart.
    replace (is_rate_limit (TypeError_read "undefined" "content")) with false
      by (vm_compute; reflexivity).
    done.
Qed.

(** X6: the outcome depends on the messages only through the normalised
    history and the content of the last message: the role of the last
    message, and whatever the normalizer drops, make no difference. *)
Theorem response_depends_on_history_and_prompt_content
        history1 history2 prompt1 prompt2 w :
  buildGeminiHistory history1 = buildGeminiHistory history2 ->
  Message.content prompt1 = Message.content prompt2 ->
  respond (history1 ++ [prompt1]) w = respond (history2 ++ [prompt2]) w.
Proof.
  intros Hh Hc. unfold getGeminiAPIResponse.
  rewrite !index_last, !slice_all_but_last, Hh.
  by rewrite (model_loop_content _ _ prompt1 prompt2 _ _ Hc).
Qed.

(** X7: a rejection passes the rate-limit test itself (its message contains
    "429") exactly when it is the final error thrown after all models were
    used up; an error that aborted the loop never does. *)
Theorem rejection_is_rate_limit_iff_exhausted messages w err :
  fst (respond messages w) = Rejected err ->
  (is_rate_limit err = true <->
   att_model <$> attempts (snd (respond messages w)) = MODELS_TO_TRY /\
   forallb rate_limited (attempts (snd (respond messages w))) = true).
Proof.
  intros Hrej.
  destruct (respond_spec startChat sendMessage messages w)
    as (exit & _ & _ & _ & Hexit).
  destruct exit as [text|err'|known].
  - destruct Hexit as [Hout _]. congruence.
  - destruct Hexit as (Hout & front & z & Hsplit & _ & Hz & Hrate).
    assert (err' = err) as -> by congruence.
    rewrite Hrate, Hsplit. split; [done|]. intros [_ Hall].
    apply rate_limited_inside in Hall. unfold rate_limited in Hall.
    rewrite Hz in Hall. congruence.
  - destruct Hexit as (Hout & Hmodels & Hall & Hknown).
    split; [done|]. intros _.
    destruct (exhausted_last None _ Hmodels Hall) as (a & e & Hlast & Hres & He).
    pose proof (last_rate_limited _ _ Hall Hlast) as Ha.
    unfold rate_limited in Ha. rewrite Hres in Ha.
    rewrite Hout, Hknown, He in Hrej. cbn in Hrej. injection Hrej as <-.
    apply is_rate_limit_contains. apply contains_append_r.
    by apply is_rate_limit_contains.
Qed.

(** X8: what the call prints is fixed by the attempts it made: for each
    attempt, in order, the "Attempting" line followed by the lines for its
    result, and at the very end the "All models failed" line exactly when
    every attempt was a rate limit. *)
Theorem console_follows_attempts messages w :
  console (snd (respond messages w)) =
  concat (attempt_lines <$> attempts (snd (respond messages w))) ++
  (if forallb rate_limited (attempts (snd (respond messages w)))
   then [exhausted_line] else []).
Proof.
  destruct (respond_unfold startChat sendMessage messages w)
    as (exit & st1 & Hloop & ->).
  destruct (model_loop_lines _ _ _ _ _ _ _ Hloop) as (tried & Htried & Hlines).
  destruct (model_loop_spec _ _ _ _ _ _ _ _ _ Hloop)
    as (tried' & Htried' & _ & _ & Hexit).
  cbn [attempts console app] in Htried, Hlines, Htried'.
  assert (tried' = tried) as -> by congruence.
  destruct exit as [text|err|known]; cbn [snd].
  - destruct Hexit as (front & z & Hsplit & _ & Hz).
    rewrite Htried, Hlines, Hsplit, ends_not_rate_limited, app_nil_r; [done|].
    unfold rate_limited. by rewrite Hz.
  - destruct Hexit as (front & z & Hsplit & _ & Hz & Hrate).
    rewrite Htried, Hlines, Hsplit, ends_not_rate_limited, app_nil_r; [done|].
    unfold rate_limited. by rewrite Hz.
  - destruct (all_failed_state known st1) as [-> ->].
    destruct Hexit as (_ & Hall & _). by rewrite Htried, Hall, Hlines.
Qed.

End OrchestratorShape.

(** ** Roles after the first user message, and what reaches the provider *)

Section Composition.

Context {W Chat : Type}.
Variable startChat : string -> list Turn.t -> W -> (Chat + Err.t) * W.
Variable sendMessage : Chat -> JS.value -> W -> (string + Err.t) * W.

Abbreviation respond := (getGeminiAPIResponse W Chat startChat sendMessage).

Implicit Types (m first : Message.t) (messages rest : list Message.t).

Lemma buildGeminiHistory_from_user first rest :
  has_content first = true -> Message.role first = "user" ->
  buildGeminiHistory (first :: rest) = walk None (first :: JS.filter has_content rest).
Proof.
  intros Hc Hu.
  destruct (buildGeminiHistory_cases (first :: rest))
    as [[Hnone _]|(pre & first' & post & Hsplit & Hpre & _ & ->)];
    unfold JS.filter in *; cbn [List.filter] in *; rewrite Hc in *.
  - apply Forall_cons in Hnone as [Hfirst _]. unfold from_user in Hfirst.
    rewrite Hu in Hfirst. done.
  - destruct pre as [|m pre].
    + by injection Hsplit as <- <-.
    + injection Hsplit as <- _. apply Forall_cons in Hpre as [Hfirst _].
      unfold from_user in Hfirst. rewrite Hu in Hfirst. done.
Qed.

Lemma same_for_walk_turn m1 m2 :
  same_for_walk m1 m2 -> currentRole m1 = currentRole m2 /\ turn_of m1 = turn_of m2.
Proof.
  intros [Hc Hr]. unfold turn_of, currentRole. by rewrite Hc, Hr.
Qed.

Lemma walk_same_for_walk lastRole rest1 rest2 :
  Forall2 same_for_walk rest1 rest2 -> walk lastRole rest1 = walk lastRole rest2.
Proof.
  intros H. revert lastRole.
  induction H as [|m1 m2 rest1 rest2 Hm _ IH]; intros lastRole; [done|].
  destruct (same_for_walk_turn _ _ Hm) as [Hrole Hturn].
  cbn [walk]. rewrite Hrole, Hturn. by rewrite !IH.
Qed.

Lemma filter_same_for_walk rest1 rest2 :
  Forall2 same_for_walk rest1 rest2 ->
  Forall2 same_for_walk (JS.filter has_content rest1) (JS.filter has_content rest2).
Proof.
  unfold JS.filter.
  induction 1 as [|m1 m2 rest1 rest2 Hm _ IH]; [constructor|].
  cbn [List.filter].
  assert (Hc : has_content m1 = has_content m2)
    by (unfold has_content; by rewrite (proj1 Hm)).
  rewrite Hc. destruct (has_content m2); [by constructor | done].
Qed.

(** X9: after the first user message with content, a message counts only
    by its content and by whether its role is "assistant": any other role
    (also an unknown one) is treated like "user". *)
Theorem later_roles_count_only_as_assistant_or_not first rest1 rest2 :
  JS.truthy (Message.content first) = true ->
  Message.role first = "user" ->
  Forall2 same_for_walk rest1 rest2 ->
  buildGeminiHistory (first :: rest1) = buildGeminiHistory (first :: rest2).
Proof.
  intros Hc Hu Hsame.
  rewrite !buildGeminiHistory_from_user by done.
  apply (walk_same_for_walk None (first :: _) (first :: _)).
  constructor; [done | by apply filter_same_for_walk].
Qed.

(** X10: whatever list of messages the function is called with, every chat
    is started on one and the same history, and that history is one the
    provider accepts. *)
Theorem every_chat_starts_on_a_valid_history messages w :
  exists history,
    provider_ready history /\
    Forall (fun a => att_history a = history) (attempts (snd (respond messages w))).
Proof.
  destruct (respond_spec startChat sendMessage messages w) as (_ & _ & Hall & _).
  exists (buildGeminiHistory (JS.slice messages 0 (-1))). split.
  - split; [|split].
    + destruct (buildGeminiHistory_head (JS.slice messages 0 (-1))) as [->| ->]; done.
    + apply buildGeminiHistory_alternating.
    + apply Forall_forall. intros t (m & _ & Hm & ->)%buildGeminiHistory_from_kept.
      by exists (Message.content m).
  - eapply Forall_impl; [exact Hall|]. by intros a [? _].
Qed.

End Composition.

(** ** Further runs on the scripted world *)

Section MoreScenarios.

Import Scripted.

Lemma empty_message_list_is_rejected_witness :
  fst (run [] [inl "never asked"]) = Rejected (TypeError_read "undefined" "content") /\
  world (snd (run [] [inl "never asked"])) = [inl "never asked"].
Proof.
  destruct (proj2 (proj2 (empty_message_list_is_rejected startChat sendMessage
                            [inl "never asked"]))
              "gemini-2.5-pro" [inl "never asked"] eq_refl) as (Hout & _ & Hworld).
  by split.
Defined.

Lemma response_depends_on_history_and_prompt_content_witness :
  run ([Message.mk "assistant" (JS.Str "old"); Message.mk "user" JS.Null]
         ++ [Message.mk "tool" (JS.Str "new question")]) [inl "hello"] =
  run (old_history ++ [question]) [inl "hello"].
Proof.
  apply (response_depends_on_history_and_prompt_content startChat sendMessage);
    reflexivity.
Defined.

Lemma rejection_is_rate_limit_iff_exhausted_witness :
  is_rate_limit unauthorized = true <->
  att_model <$> attempts (snd (run chat_log [inr too_many; inr unauthorized])) =
    MODELS_TO_TRY /\
  forallb rate_limited (attempts (snd (run chat_log [inr too_many; inr unauthorized]))) =
    true.
Proof.
  exact (rejection_is_rate_limit_iff_exhausted startChat sendMessage chat_log
           [inr too_many; inr unauthorized] unauthorized eq_refl).
Defined.

Lemma later_roles_count_only_as_assistant_or_not_witness :
  buildGeminiHistory
    (Message.mk "user" (JS.Str "hi")
       :: [Message.mk "system" (JS.Str "note"); Message.mk "assistant" (JS.Str "yo")]) =
  buildGeminiHistory
    (Message.mk "user" (JS.Str "hi")
       :: [Message.mk "user" (JS.Str "note"); Message.mk "assistant" (JS.Str "yo")]).
Proof.
  apply later_roles_count_only_as_assistant_or_not; [reflexivity | reflexivity |].
  repeat (constructor; [by split|]). constructor.
Defined.

End MoreScenarios.
